(** * Spotify API client: a shallow embedding of [spotifyapiclient.py]

    The class [SpotifyAPIClient] is sequential request/response glue.  Its
    methods are embedded as computations of a small state-and-error monad
    over a [World]: the client object ([self]), the chronological trace of
    the effects the program has performed, the lines waiting on standard
    input and the CSV files on disk.  The remote service and the wall clock
    are parameters ([server], [clock]); both may depend on everything the
    program has done so far.

    Conventions of the embedding:
    - [time.time()] is read in whole seconds ([Z]);
    - a [pandas.DataFrame] built from a list of dicts is the list of its
      rows; a frame built from the empty list has no columns, so selecting
      a column of it raises [KeyError];
    - the ledger CSV holds the two columns [track_id] and [album_id];
    - [print] only writes to the console and is left out;
    - every [while True] loop takes a [fuel] bound on its iterations and
      yields [Timeout] when the bound is exhausted. *)

From Stdlib Require Import String Ascii List ZArith Lia Bool Arith PeanoNat.
Import ListNotations.
Open Scope string_scope.
Open Scope list_scope.
Open Scope Z_scope.

(** ** Python helpers *)

(** [a in s] on strings: [a] occurs in [s] as a contiguous substring. *)
Fixpoint str_in (a s : string) : bool :=
  if prefix a s then true
  else match s with
       | EmptyString => false
       | String _ s' => str_in a s'
       end.

(** [x in xs] on a column of strings ([Series.isin]). *)
Definition isin (x : string) (xs : list string) : bool :=
  existsb (String.eqb x) xs.

(** [xs[lo:hi]] for [0 <= lo <= hi]. *)
Definition slice {A} (xs : list A) (lo hi : nat) : list A :=
  firstn (hi - lo) (skipn lo xs).

(** [round(n / d)] for an integer [n] and a positive [d]: Python rounds
    halves to the even neighbour. *)
Definition py_round_div (n d : Z) : Z :=
  let q := n / d in
  let r := n mod d in
  if 2 * r <? d then q
  else if d <? 2 * r then q + 1
  else if Z.even q then q else q + 1.

(** [range(n)]. *)
Definition range (n : nat) : list nat := seq 0 n.

(** ** JSON objects returned by the service *)

Module JArtist.
Record t := mk { name : string; id : string; genres : list string }.
End JArtist.

Module JPlaylist.
Record t := mk { id : string; name : string }.
End JPlaylist.

Module JArtistRef.
Record t := mk { id : string; name : string }.
End JArtistRef.

Module JAlbumRef.
Record t := mk { name : string; uri : string }.
End JAlbumRef.

Module JItem.
Record t := mk {
  added_at : string;
  id : string;
  name : string;
  uri : string;
  artists : list JArtistRef.t;
  album : JAlbumRef.t }.
End JItem.

Module JAlbum.
Record t := mk {
  name : string;
  id : string;
  album_group : string;
  release_date : string;
  is_playable : bool }.
End JAlbum.

Module JTrack.
Record t := mk {
  name : string;
  id : string;
  uri : string;
  artists : list JArtistRef.t;
  disc_number : Z;
  track_number : Z;
  is_playable : bool;
  duration_ms : Z }.
End JTrack.

Module JFullAlbum.
Record t := mk {
  id : string;
  total_tracks : Z;
  limit : Z;
  items : list JTrack.t }.
End JFullAlbum.

(** The body of a response, by the keys the client reads from it. *)
Inductive body :=
| BOther
| BRefreshToken (refresh_token : string)
| BAccessToken (access_token : string)
| BUser (id : string)
| BArtists (items : list JArtist.t) (total : Z)
| BPlaylists (items : list JPlaylist.t) (total : Z)
| BPlaylistItems (items : list JItem.t) (total : Z)
| BAlbums (items : list JAlbum.t) (total : Z)
| BTracks (items : list JTrack.t) (total : Z)
| BSeveralAlbums (albums : list JFullAlbum.t)
| BError (message : string).

Record response := mkResponse { status_code : Z; json : body }.

(** ** Rows of the tables the client builds *)

Module ArtistRow.
Record t := mk { artist : string; artist_id : string; genres : string }.
End ArtistRow.

Module PlaylistRow.
Record t := mk { playlist_id : string; playlist_name : string }.
End PlaylistRow.

Module ItemRow.
Record t := mk {
  playlist_id : string;
  track_id : string;
  track_name : string;
  track_uri : string;
  artist_ids : string;
  artist_names : string;
  album_name : string;
  album_uri : string;
  added_at : string }.
End ItemRow.

Module AlbumRow.
Record t := mk {
  artist_id : string;
  album_name : string;
  album_id : string;
  album_group : string;
  album_release_date : string;
  album_is_playable : bool }.
End AlbumRow.

Module TrackRow.
Record t := mk {
  album_id : string;
  track_name : string;
  track_id : string;
  track_uri : string;
  track_artist_ids : string;
  track_artist_names : string;
  disc_number : Z;
  track_number : Z;
  track_is_playable : bool;
  track_length : Z }.
End TrackRow.

(** A row of the reviewed-tracks CSV. *)
Module Ledger.
Record t := mk { track_id : string; album_id : string }.

Definition eqb (a b : t) : bool :=
  String.eqb (track_id a) (track_id b) && String.eqb (album_id a) (album_id b).
End Ledger.

(** ** Requests, effects and the world *)

Inductive request :=
| PostAuthorizationCode (client_id client_secret code redirect_uri : string)
| PostRefreshToken (client_id client_secret refresh_token : string)
| GetMe (token : string)
| GetFollowing (token : string) (after : option string)
| PutFollowing (token : string) (ids : string)
| GetMyPlaylists (token : string) (offset : Z)
| PostPlaylist (token user_id name description : string)
| GetPlaylistTracks (token playlist_id : string) (offset : Z)
| PostPlaylistTracks (token playlist_id : string) (uris : list string)
| GetArtistAlbums (token artist_id : string) (offset : Z)
| GetAlbumTracks (token album_id : string) (offset : Z)
| GetAlbums (token : string) (ids : string).

Inductive event :=
| Sent (r : request)
| WroteCsv (path : string) (rows : list Ledger.t).

Record Client := mkClient {
  client_id : string;
  client_secret : string;
  redirect_uri : string;
  scopes : string;
  refresh_token : string;
  access_token : string;
  expiration_time : Z;
  user_id : string }.

Record World := mkWorld {
  self : Client;
  trace : list event;
  stdin : list string;
  files : string -> option (list Ledger.t) }.

(** The exceptions the client can run into.  [KeyError] is the lookup of a
    key that a JSON body, or of a column that a frame, does not have; a body
    that is no JSON at all is not told apart from it. *)
Inductive exn := KeyError | IndexError | EOFError | FileNotFoundError.

Inductive outcome (A : Type) :=
| Ret (a : A)
| Raise (e : exn)
| Timeout.
Arguments Ret {A} a.
Arguments Raise {A} e.
Arguments Timeout {A}.

Definition M (A : Type) : Type := World -> outcome A * World.

Definition ret {A} (a : A) : M A := fun w => (Ret a, w).

Definition raise {A} (e : exn) : M A := fun w => (Raise e, w).

Definition timeout {A} : M A := fun w => (Timeout, w).

Definition bind {A B} (m : M A) (k : A -> M B) : M B :=
  fun w =>
    match m w with
    | (Ret a, w') => k a w'
    | (Raise e, w') => (Raise e, w')
    | (Timeout, w') => (Timeout, w')
    end.

Definition lift {A} (o : outcome A) : M A := fun w => (o, w).

Notation "x <- m ;; k" := (bind m (fun x => k))
  (at level 61, m at next level, right associativity).
Notation "m ;; k" := (bind m (fun _ => k))
  (at level 61, right associativity).

Fixpoint for_each {A} (xs : list A) (f : A -> M unit) : M unit :=
  match xs with
  | [] => ret tt
  | x :: xs' => f x ;; for_each xs' f
  end.

Fixpoint collect {A B} (xs : list A) (f : A -> M B) : M (list B) :=
  match xs with
  | [] => ret []
  | x :: xs' => y <- f x ;; ys <- collect xs' f ;; ret (y :: ys)
  end.

Definition get_self : M Client := fun w => (Ret (self w), w).

Definition set_self (c : Client) : M unit :=
  fun w => (Ret tt, mkWorld c (trace w) (stdin w) (files w)).

(** [input(prompt)]: the next line of standard input. *)
Definition input : M string :=
  fun w =>
    match stdin w with
    | [] => (Raise EOFError, w)
    | line :: rest => (Ret line, mkWorld (self w) (trace w) rest (files w))
    end.

(** [pd.read_csv(path)]. *)
Definition read_csv (path : string) : M (list Ledger.t) :=
  fun w =>
    match files w path with
    | None => (Raise FileNotFoundError, w)
    | Some rows => (Ret rows, w)
    end.

(** [frame.to_csv(path, index = False)]. *)
Definition to_csv (path : string) (rows : list Ledger.t) : M unit :=
  fun w =>
    (Ret tt,
     mkWorld (self w) (trace w ++ [WroteCsv path rows]) (stdin w)
       (fun p => if String.eqb p path then Some rows else files w p)).

(** ** Flattening JSON objects into rows *)

Definition artist_row (artist : JArtist.t) : ArtistRow.t :=
  ArtistRow.mk (JArtist.name artist) (JArtist.id artist)
    (String.concat " | " (JArtist.genres artist)).

Definition playlist_row (playlist : JPlaylist.t) : PlaylistRow.t :=
  PlaylistRow.mk (JPlaylist.id playlist) (JPlaylist.name playlist).

Definition item_row (playlist_id : string) (track : JItem.t) : ItemRow.t :=
  ItemRow.mk playlist_id (JItem.id track) (JItem.name track) (JItem.uri track)
    (String.concat "|" (map JArtistRef.id (JItem.artists track)))
    (String.concat "|" (map JArtistRef.name (JItem.artists track)))
    (JAlbumRef.name (JItem.album track)) (JAlbumRef.uri (JItem.album track))
    (JItem.added_at track).

Definition album_row (artist_id : string) (album : JAlbum.t) : AlbumRow.t :=
  AlbumRow.mk artist_id (JAlbum.name album) (JAlbum.id album)
    (JAlbum.album_group album) (JAlbum.release_date album)
    (JAlbum.is_playable album).

Definition track_row (album_id : string) (track : JTrack.t) : TrackRow.t :=
  TrackRow.mk album_id (JTrack.name track) (JTrack.id track) (JTrack.uri track)
    (String.concat "|" (map JArtistRef.id (JTrack.artists track)))
    (String.concat "|" (map JArtistRef.name (JTrack.artists track)))
    (JTrack.disc_number track) (JTrack.track_number track)
    (JTrack.is_playable track)
    (py_round_div (JTrack.duration_ms track) 1000).

(** The pages of the four offset-paginated endpoints, as [(data, total)]. *)
Definition playlists_page (b : body) : option (list PlaylistRow.t * Z) :=
  match b with
  | BPlaylists items total => Some (map playlist_row items, total)
  | _ => None
  end.

Definition items_page (playlist_id : string) (b : body)
  : option (list ItemRow.t * Z) :=
  match b with
  | BPlaylistItems items total => Some (map (item_row playlist_id) items, total)
  | _ => None
  end.

Definition albums_page (artist_id : string) (b : body)
  : option (list AlbumRow.t * Z) :=
  match b with
  | BAlbums items total => Some (map (album_row artist_id) items, total)
  | _ => None
  end.

Definition tracks_page (album_id : string) (b : body)
  : option (list TrackRow.t * Z) :=
  match b with
  | BTracks items total => Some (map (track_row album_id) items, total)
  | _ => None
  end.

(** ** The reconciliation workflow's table operations *)

(** [playlists.loc[playlists['playlist_name'] == 'Pending Review',
    'playlist_id'].values[0]]. *)
Definition pending_review_playlist_id (playlists : list PlaylistRow.t)
  : outcome string :=
  match playlists with
  | [] => Raise KeyError
  | _ =>
      match filter (fun p => String.eqb (PlaylistRow.playlist_name p) "Pending Review")
                   playlists with
      | [] => Raise IndexError
      | p :: _ => Ret (PlaylistRow.playlist_id p)
      end
  end.

(** [albums.loc[~albums['album_id'].isin(reviewed['album_id'])]]. *)
Definition remove_reviewed_albums (albums : list AlbumRow.t)
    (reviewed : list Ledger.t) : outcome (list AlbumRow.t) :=
  match albums with
  | [] => Raise KeyError
  | _ =>
      Ret (filter (fun a => negb (isin (AlbumRow.album_id a)
                                       (map Ledger.album_id reviewed)))
                  albums)
  end.

(** [','.join(albums['album_id'].values[20 * i:20 * (i + 1)])]. *)
Definition album_ids_batch (albums : list AlbumRow.t) (i : nat) : list string :=
  slice (map AlbumRow.album_id albums) (20 * i) (20 * (i + 1)).

(** The two filters under "Remove irrelevant tracks". *)
Definition features_artist (artist_id : string) (tracks : list TrackRow.t)
  : list TrackRow.t :=
  filter (fun t => str_in artist_id (TrackRow.track_artist_ids t)) tracks.

Definition not_yet_reviewed (reviewed : list Ledger.t) (tracks : list TrackRow.t)
  : list TrackRow.t :=
  filter (fun t => negb (isin (TrackRow.track_id t) (map Ledger.track_id reviewed)))
         tracks.

Definition remove_irrelevant_tracks (artist_id : string)
    (reviewed : list Ledger.t) (tracks : list TrackRow.t)
  : outcome (list TrackRow.t) :=
  match tracks with
  | [] => Raise KeyError
  | _ => Ret (not_yet_reviewed reviewed (features_artist artist_id tracks))
  end.

(** The columns [duplicated(subset = ...)] compares. *)
Definition dedup_key (t : TrackRow.t) : string * string * Z :=
  (TrackRow.track_name t, TrackRow.track_artist_ids t, TrackRow.track_length t).

Definition dedup_key_eqb (a b : string * string * Z) : bool :=
  let '(n1, a1, l1) := a in
  let '(n2, a2, l2) := b in
  String.eqb n1 n2 && String.eqb a1 a2 && Z.eqb l1 l2.

(** [tracks.loc[~tracks.duplicated(subset = [...])]]: a row is marked when
    an earlier row carries the same key. *)
Fixpoint drop_duplicated (seen : list (string * string * Z))
    (tracks : list TrackRow.t) : list TrackRow.t :=
  match tracks with
  | [] => []
  | t :: rest =>
      if existsb (dedup_key_eqb (dedup_key t)) seen
      then drop_duplicated seen rest
      else t :: drop_duplicated (dedup_key t :: seen) rest
  end.

Definition pending_review (tracks : list TrackRow.t) : list TrackRow.t :=
  drop_duplicated [] tracks.

(** [tracks[['track_id','album_id']]]. *)
Definition ledger_rows (tracks : list TrackRow.t) : list Ledger.t :=
  map (fun t => Ledger.mk (TrackRow.track_id t) (TrackRow.album_id t)) tracks.

(** [frame.drop_duplicates(ignore_index = True)]: the first of equal rows
    stays. *)
Fixpoint drop_duplicates_from (seen rows : list Ledger.t) : list Ledger.t :=
  match rows with
  | [] => []
  | r :: rest =>
      if existsb (Ledger.eqb r) seen
      then drop_duplicates_from seen rest
      else r :: drop_duplicates_from (r :: seen) rest
  end.

Definition drop_duplicates (rows : list Ledger.t) : list Ledger.t :=
  drop_duplicates_from [] rows.

Definition updated_reviewed (reviewed : list Ledger.t) (tracks : list TrackRow.t)
  : list Ledger.t :=
  drop_duplicates (reviewed ++ ledger_rows tracks).

(** [pending['track_uri'].values[100 * i:100 * (i + 1)].tolist()]. *)
Definition track_uris_batch (pending : list TrackRow.t) (i : nat) : list string :=
  slice (map TrackRow.track_uri pending) (100 * i) (100 * (i + 1)).

(** ** The client *)

Section SpotifyAPIClient.

(** The service answers a request knowing everything that happened before
    it; the clock is read against the same history. *)
Variable server : list event -> request -> response.
Variable clock : list event -> Z.

(** [requests.get], [requests.post], [requests.put]. *)
Definition send (r : request) : M response :=
  fun w =>
    (Ret (server (trace w) r),
     mkWorld (self w) (trace w ++ [Sent r]) (stdin w) (files w)).

(** [time.time()]. *)
Definition time_time : M Z := fun w => (Ret (clock (trace w)), w).

Definition get_refresh_token : M string :=
  c <- get_self ;;
  code <- input ;;
  response <- send (PostAuthorizationCode (client_id c) (client_secret c) code
                      (redirect_uri c)) ;;
  match json response with
  | BRefreshToken token => ret token
  | _ => raise KeyError
  end.

(** Returns the pair [(access_token, expiration_time)]; it assigns nothing. *)
Definition get_access_token : M (string * Z) :=
  c <- get_self ;;
  response <- send (PostRefreshToken (client_id c) (client_secret c)
                      (refresh_token c)) ;;
  match json response with
  | BAccessToken token => now <- time_time ;; ret (token, now + 3600)
  | _ => raise KeyError
  end.

(** The test every wrapped method starts with:
    [if self.expiration_time - time.time() <= 600: self.get_access_token()]. *)
Definition refresh_if_close : M unit :=
  c <- get_self ;;
  now <- time_time ;;
  if expiration_time c - now <=? 600
  then get_access_token ;; ret tt
  else ret tt.

(** The decorator. *)
Definition check_access_token {A} (func : M A) : M A :=
  refresh_if_close ;; func.

Definition get_user_id : M string :=
  check_access_token (
    c <- get_self ;;
    response <- send (GetMe (access_token c)) ;;
    match json response with
    | BUser id => ret id
    | _ => raise KeyError
    end).

(** The cursor loop of [get_followed_artists]; [after] is [params['after']]. *)
Fixpoint followed_artists_loop (token : string) (fuel : nat)
    (artists : list ArtistRow.t) (after : option string)
  : M (list ArtistRow.t) :=
  match fuel with
  | O => timeout
  | S fuel' =>
      response <- send (GetFollowing token after) ;;
      match json response with
      | BArtists items total =>
          let data := map artist_row items in
          let artists := artists ++ data in
          if Z.of_nat (length artists) =? total then ret artists
          else match rev data with
               | [] => raise IndexError
               | last :: _ =>
                   followed_artists_loop token fuel' artists
                     (Some (ArtistRow.artist_id last))
               end
      | _ => raise KeyError
      end
  end.

Definition get_followed_artists (fuel : nat) : M (list ArtistRow.t) :=
  check_access_token (
    refresh_if_close ;;
    c <- get_self ;;
    followed_artists_loop (access_token c) fuel [] None).

Definition follow_artist (artist_id : string) : M unit :=
  check_access_token (
    c <- get_self ;;
    response <- send (PutFollowing (access_token c) artist_id) ;;
    if status_code response =? 204 then ret tt
    else match json response with
         | BError _ => ret tt
         | _ => raise KeyError
         end).

(** The offset loop shared by the four [limit]/[offset] endpoints:
    [request offset] is the GET with [params['offset'] = offset] and [page]
    reads [items] and [total] off the answer. *)
Fixpoint offset_loop {R} (request : Z -> request)
    (page : body -> option (list R * Z)) (fuel : nat) (rows : list R)
    (offset : Z) : M (list R) :=
  match fuel with
  | O => timeout
  | S fuel' =>
      response <- send (request offset) ;;
      match page (json response) with
      | Some (data, total) =>
          let rows := rows ++ data in
          if Z.of_nat (length rows) =? total then ret rows
          else offset_loop request page fuel' rows (offset + 50)
      | None => raise KeyError
      end
  end.

Definition get_current_user_playlists (fuel : nat) : M (list PlaylistRow.t) :=
  check_access_token (
    c <- get_self ;;
    offset_loop (GetMyPlaylists (access_token c)) playlists_page fuel [] 0).

Definition create_playlist (fuel : nat) (playlist_name playlist_description : string)
  : M unit :=
  check_access_token (
    user_playlists <- get_current_user_playlists fuel ;;
    match user_playlists with
    | [] => raise KeyError
    | _ =>
        if isin playlist_name (map PlaylistRow.playlist_name user_playlists)
        then ret tt
        else
          c <- get_self ;;
          send (PostPlaylist (access_token c) (user_id c) playlist_name
                  playlist_description) ;;
          ret tt
    end).

Definition get_playlist_items (fuel : nat) (playlist_id : string)
  : M (list ItemRow.t) :=
  check_access_token (
    c <- get_self ;;
    offset_loop (GetPlaylistTracks (access_token c) playlist_id)
      (items_page playlist_id) fuel [] 0).

Definition add_items_to_playlist (playlist_id : string) (track_uris : list string)
  : M unit :=
  check_access_token (
    c <- get_self ;;
    send (PostPlaylistTracks (access_token c) playlist_id track_uris) ;;
    ret tt).

Definition get_artists_albums (fuel : nat) (artist_id : string)
  : M (list AlbumRow.t) :=
  check_access_token (
    c <- get_self ;;
    offset_loop (GetArtistAlbums (access_token c) artist_id)
      (albums_page artist_id) fuel [] 0).

Definition get_albums_tracks (fuel : nat) (album_id : string)
  : M (list TrackRow.t) :=
  check_access_token (
    c <- get_self ;;
    offset_loop (GetAlbumTracks (access_token c) album_id)
      (tracks_page album_id) fuel [] 0).

(** The tracks of one album of a batch answer. *)
Definition album_tracks (fuel : nat) (album : JFullAlbum.t) : M (list TrackRow.t) :=
  if JFullAlbum.limit album <=? JFullAlbum.total_tracks album
  then get_albums_tracks fuel (JFullAlbum.id album)
  else ret (map (track_row (JFullAlbum.id album)) (JFullAlbum.items album)).

Definition get_several_albums_tracks (fuel : nat) (album_ids : string)
  : M (list TrackRow.t) :=
  check_access_token (
    c <- get_self ;;
    response <- send (GetAlbums (access_token c) album_ids) ;;
    match json response with
    | BSeveralAlbums album_list =>
        tracks <- collect album_list (album_tracks fuel) ;;
        ret (concat tracks)
    | _ => raise KeyError
    end).

(** *** [review_artist_discography], by the comments that head its parts *)

(** "Get playlist details" and "Get all albums associated with artist". *)
Definition review_load (fuel : nat) (artist_id path : string)
  : M (string * list Ledger.t * list AlbumRow.t) :=
  playlists <- get_current_user_playlists fuel ;;
  pending_review_playlist_id <- lift (pending_review_playlist_id playlists) ;;
  reviewed_playlist_tracks <- read_csv path ;;
  albums <- get_artists_albums fuel artist_id ;;
  ret (pending_review_playlist_id, reviewed_playlist_tracks, albums).

(** "Get all tracks associated with artist". *)
Definition review_fetch (fuel : nat) (album_count : nat) (albums : list AlbumRow.t)
  : M (list TrackRow.t) :=
  tracks <- collect (range (album_count / 20 + 1))
              (fun i => get_several_albums_tracks fuel
                          (String.concat "," (album_ids_batch albums i))) ;;
  ret (concat tracks).

(** Everything up to the confirmation prompt: the playlist id, the ledger,
    the tracks left by the two filters and the deduplicated candidates. *)
Definition review_candidates (fuel : nat) (artist_id path : string)
  : M (string * list Ledger.t * list TrackRow.t * list TrackRow.t) :=
  loaded <- review_load fuel artist_id path ;;
  let '(pending_review_playlist_id, reviewed_playlist_tracks, albums) := loaded in
  let album_count := length albums in
  albums <- lift (remove_reviewed_albums albums reviewed_playlist_tracks) ;;
  tracks <- review_fetch fuel album_count albums ;;
  tracks <- lift (remove_irrelevant_tracks artist_id reviewed_playlist_tracks tracks) ;;
  ret (pending_review_playlist_id, reviewed_playlist_tracks, tracks,
       pending_review tracks).

(** "Upload tracks to Pending Reviewed Playlist". *)
Definition review_upload (pending_review_playlist_id : string)
    (pending_review_tracks : list TrackRow.t) : M unit :=
  let track_count := length pending_review_tracks in
  for_each (range (track_count / 100 + 1))
    (fun i => add_items_to_playlist pending_review_playlist_id
                (track_uris_batch pending_review_tracks i)).

(** Upload, "Update reviewed playlist CSV" and "Follow Artist". *)
Definition review_commit (artist_id path : string)
    (pending_review_playlist_id : string) (reviewed_playlist_tracks : list Ledger.t)
    (tracks pending_review_tracks : list TrackRow.t) : M unit :=
  review_upload pending_review_playlist_id pending_review_tracks ;;
  to_csv path (updated_reviewed reviewed_playlist_tracks tracks) ;;
  follow_artist artist_id.

Definition review_artist_discography (fuel : nat) (artist_id path : string)
  : M unit :=
  check_access_token (
    candidates <- review_candidates fuel artist_id path ;;
    let '(pending_review_playlist_id, reviewed_playlist_tracks, tracks,
          pending_review_tracks) := candidates in
    answer <- input ;;
    if negb (String.eqb answer "Y") then ret tt
    else review_commit artist_id path pending_review_playlist_id
           reviewed_playlist_tracks tracks pending_review_tracks).

(** [SpotifyAPIClient(client_id, client_secret, redirect_uri, scopes,
    refresh_token)]: the constructor stores what [get_access_token] returns. *)
Definition init (client_id client_secret redirect_uri scopes : string)
    (refresh_token : option string) : M unit :=
  set_self (mkClient client_id client_secret redirect_uri scopes "" "" 0 "") ;;
  token <- match refresh_token with
           | None => get_refresh_token
           | Some token => ret token
           end ;;
  set_self (mkClient client_id client_secret redirect_uri scopes token "" 0 "") ;;
  access <- get_access_token ;;
  set_self (mkClient client_id client_secret redirect_uri scopes token
              (fst access) (snd access) "") ;;
  user <- get_user_id ;;
  set_self (mkClient client_id client_secret redirect_uri scopes token
              (fst access) (snd access) user).

End SpotifyAPIClient.

(** ** Reading a trace *)

Inductive kind :=
| KAuthorize | KRefresh | KMe | KFollowing | KFollow | KPlaylists | KCreate
| KItems | KAdd | KArtistAlbums | KAlbumTracks | KAlbums.

Definition kind_of (r : request) : kind :=
  match r with
  | PostAuthorizationCode _ _ _ _ => KAuthorize
  | PostRefreshToken _ _ _ => KRefresh
  | GetMe _ => KMe
  | GetFollowing _ _ => KFollowing
  | PutFollowing _ _ => KFollow
  | GetMyPlaylists _ _ => KPlaylists
  | PostPlaylist _ _ _ _ => KCreate
  | GetPlaylistTracks _ _ _ => KItems
  | PostPlaylistTracks _ _ _ => KAdd
  | GetArtistAlbums _ _ _ => KArtistAlbums
  | GetAlbumTracks _ _ _ => KAlbumTracks
  | GetAlbums _ _ => KAlbums
  end.

(** The requests sent, oldest first. *)
Definition requests (t : list event) : list request :=
  flat_map (fun e => match e with Sent r => [r] | _ => [] end) t.

(** How many access-token refreshes the trace holds. *)
Definition refreshes (t : list event) : nat :=
  length (filter (fun r => match kind_of r with KRefresh => true | _ => false end)
                 (requests t)).

(** How many page requests of the five paginated endpoints it holds. *)
Definition is_page_request (r : request) : bool :=
  match kind_of r with
  | KFollowing | KPlaylists | KItems | KArtistAlbums | KAlbumTracks => true
  | _ => false
  end.

Definition page_requests (t : list event) : nat :=
  length (filter is_page_request (requests t)).

(** The calls of [add_items_to_playlist] that reached the service:
    playlist id and URIs of each. *)
Definition uploads (t : list event) : list (string * list string) :=
  flat_map (fun e => match e with
                     | Sent (PostPlaylistTracks _ playlist_id uris) =>
                         [(playlist_id, uris)]
                     | _ => []
                     end) t.

(** The artists [follow_artist] asked to follow. *)
Definition follows (t : list event) : list string :=
  flat_map (fun e => match e with
                     | Sent (PutFollowing _ ids) => [ids]
                     | _ => []
                     end) t.

(** The CSV files written. *)
Definition csv_writes (t : list event) : list (string * list Ledger.t) :=
  flat_map (fun e => match e with
                     | WroteCsv path rows => [(path, rows)]
                     | _ => []
                     end) t.

(** The [ids] parameter of each batched album request. *)
Definition albums_requests (t : list event) : list string :=
  flat_map (fun e => match e with
                     | Sent (GetAlbums _ ids) => [ids]
                     | _ => []
                     end) t.

(** A computation that never returns, whatever bound its loops are given. *)
Definition diverges {A} (op : nat -> M A) (w : World) : Prop :=
  forall fuel, fst (op fuel w) = Timeout.

(** [ceil(n / d)]. *)
Definition ceil_div (n d : nat) : nat := (n + d - 1) / d.

(** ** Simulated resources *)

(** An offset-paginated resource of rows [all], served consistently: the
    page at offset [50 * k] holds the rows from there on, at most 50, and
    every page reports [total = len(all)]. *)
Definition serves_offset {R} (server : list event -> request -> response)
    (request : Z -> request) (page : body -> option (list R * Z))
    (all : list R) : Prop :=
  forall history (k : nat),
    page (json (server history (request (50 * Z.of_nat k))))
    = Some (slice all (50 * k) (50 * (k + 1)), Z.of_nat (length all)).

(** What follows the artist [id] in the listing. *)
Fixpoint drop_through (id : string) (all : list JArtist.t) : list JArtist.t :=
  match all with
  | [] => []
  | a :: rest => if String.eqb id (JArtist.id a) then rest else drop_through id rest
  end.

Definition after_cursor (after : option string) (all : list JArtist.t)
  : list JArtist.t :=
  match after with
  | None => all
  | Some id => drop_through id all
  end.

(** The cursor-paginated listing of followed artists, served consistently. *)
Definition serves_cursor (server : list event -> request -> response)
    (all : list JArtist.t) : Prop :=
  forall history token after,
    json (server history (GetFollowing token after))
    = BArtists (firstn 50 (after_cursor after all)) (Z.of_nat (length all)).

(** The token endpoint answers every refresh with an access token. *)
Definition serves_tokens (server : list event -> request -> response) : Prop :=
  forall history id secret refresh,
    exists token,
      json (server history (PostRefreshToken id secret refresh)) = BAccessToken token.

(** A paginated operation returns exactly the rows [all] of the resource
    and sends [ceil(len(all) / 50)] page requests for them, once its loop
    bound allows that many iterations. *)
Definition paginates {R} (op : nat -> M (list R)) (all : list R) (w : World)
  : Prop :=
  forall fuel, (ceil_div (length all) 50 <= fuel)%nat ->
    exists w',
      op fuel w = (Ret all, w') /\
      page_requests (trace w')
      = (page_requests (trace w) + ceil_div (length all) 50)%nat.

(** The world after one more request. *)
Definition sent (w : World) (r : request) : World :=
  mkWorld (self w) (trace w ++ [Sent r]) (stdin w) (files w).

(** ** What an operation may do to the world

    [step allowed w w'] : from [w] to [w'] the client object, standard
    input and the files are untouched, and the trace has grown by requests
    of the [allowed] kinds only. *)

Definition permitted (allowed : kind -> bool) (e : event) : Prop :=
  match e with
  | Sent r => allowed (kind_of r) = true
  | WroteCsv _ _ => False
  end.

Definition step (allowed : kind -> bool) (w w' : World) : Prop :=
  self w' = self w /\ stdin w' = stdin w /\ files w' = files w /\
  exists new, trace w' = trace w ++ new /\ Forall (permitted allowed) new.

Definition emits (allowed : kind -> bool) {A} (m : M A) : Prop :=
  forall w, step allowed w (snd (m w)).

(** The kinds of request a part of the workflow is confined to. *)
Definition only_refresh (k : kind) : bool :=
  match k with KRefresh => true | _ => false end.

Definition only_reads (k : kind) : bool :=
  match k with
  | KRefresh | KPlaylists | KArtistAlbums | KAlbums | KAlbumTracks => true
  | _ => false
  end.

Definition all_but_albums (k : kind) : bool :=
  match k with KAlbums => false | _ => true end.

Definition all_but_add (k : kind) : bool :=
  match k with KAdd => false | _ => true end.

(** ** A simulated account

    Twenty-five albums ["a"] .. ["y"] of artist ["A"]; the ledger already
    holds the first five.  Every batched album request is answered with one
    album ["z"] of 250 tracks, all featuring ["A"], of which the answer
    inlines the first 50; the album's own track listing serves them 50 at a
    time. *)

Definition char (n : nat) : string := String (ascii_of_nat n) "".

Definition demo_albums : list JAlbum.t :=
  map (fun i => JAlbum.mk (char (97 + i)) (char (97 + i)) "album" "2020-01-01" true)
      (seq 0 25).

Definition demo_tracks : list JTrack.t :=
  map (fun i => JTrack.mk (char i) (char i) (char i)
                  [JArtistRef.mk "A" "Artist"] 1 (Z.of_nat i) true 180000)
      (seq 0 250).

Definition demo_server (history : list event) (r : request) : response :=
  match r with
  | PostRefreshToken _ _ _ => mkResponse 200 (BAccessToken "fresh")
  | GetMe _ => mkResponse 200 (BUser "me")
  | GetFollowing _ _ => mkResponse 200 (BArtists [] 0)
  | GetMyPlaylists _ _ =>
      mkResponse 200
        (BPlaylists [JPlaylist.mk "P1" "Liked"; JPlaylist.mk "P2" "Pending Review"] 2)
  | GetArtistAlbums _ _ offset =>
      mkResponse 200 (BAlbums (if offset =? 0 then demo_albums else []) 25)
  | GetAlbums _ _ =>
      mkResponse 200
        (BSeveralAlbums [JFullAlbum.mk "z" 250 50 (firstn 50 demo_tracks)])
  | GetAlbumTracks _ _ offset =>
      mkResponse 200
        (BTracks (firstn 50 (skipn (Z.to_nat offset) demo_tracks)) 250)
  | PostPlaylistTracks _ _ _ => mkResponse 201 BOther
  | PutFollowing _ _ => mkResponse 204 BOther
  | _ => mkResponse 404 BOther
  end.

Definition demo_clock (history : list event) : Z := 1000.

Definition demo_ledger : list Ledger.t :=
  map (fun i => Ledger.mk ("reviewed" ++ char (48 + i)) (char (97 + i))) (seq 0 5).

Definition demo_files (path : string) : option (list Ledger.t) :=
  if String.eqb path "reviewed.csv" then Some demo_ledger else None.

(** A client whose token is good for another hour, and the operator's
    answer at the prompt. *)
Definition demo_client : Client :=
  mkClient "id" "secret" "http://localhost" "user-follow-modify" "refresh" "token"
    4600 "me".

Definition demo_world (answer : string) : World :=
  mkWorld demo_client [] [answer] demo_files.

(** The rows the simulated account leads to. *)
Definition demo_album_rows : list AlbumRow.t := map (album_row "A") demo_albums.

Definition demo_fetched : list TrackRow.t :=
  map (track_row "z") demo_tracks ++ map (track_row "z") demo_tracks.

Definition demo_filtered : list TrackRow.t :=
  not_yet_reviewed demo_ledger (features_artist "A" demo_fetched).


(** A client whose access token expires 500 seconds after the clock's
    reading. *)
Definition stale_client : Client :=
  mkClient "id" "secret" "http://localhost" "user-follow-modify" "refresh" "token"
    1500 "me".

Definition stale_world : World := mkWorld stale_client [] [] demo_files.

(** A playlist listing that keeps answering with no items and [total = 1]. *)
Definition stuck_server (history : list event) (r : request) : response :=
  match r with
  | GetMyPlaylists _ _ => mkResponse 200 (BPlaylists [] 1)
  | _ => demo_server history r
  end.

(** ** A simulated multi-page resource

    120 albums and 120 followed artists, served 50 at a time. *)

Definition paged_albums : list JAlbum.t :=
  map (fun i => JAlbum.mk (char i) (char i) "album" "2020-01-01" true) (seq 0 120).

Definition paged_artists : list JArtist.t :=
  map (fun i => JArtist.mk (char i) (char i) ["rock"; "pop"]) (seq 0 120).

Definition paged_server (history : list event) (r : request) : response :=
  match r with
  | GetArtistAlbums _ _ offset =>
      mkResponse 200
        (BAlbums (firstn 50 (skipn (Z.to_nat offset) paged_albums)) 120)
  | GetFollowing _ after =>
      mkResponse 200 (BArtists (firstn 50 (after_cursor after paged_artists)) 120)
  | _ => demo_server history r
  end.

(** No string occurs twice. *)
Fixpoint distinctb (xs : list string) : bool :=
  match xs with
  | [] => true
  | x :: rest => negb (isin x rest) && distinctb rest
  end.

(** ** Further readings of a trace *)

(** The kinds of request that change something at the service. *)
Definition mutating (k : kind) : bool :=
  match k with
  | KFollow | KCreate | KAdd => true
  | _ => false
  end.

Definition no_mutation (k : kind) : bool := negb (mutating k).

(** The mutating requests sent, oldest first. *)
Definition mutations (t : list event) : list request :=
  filter (fun r => mutating (kind_of r)) (requests t).

(** An operation that neither changes the client object, standard input
    or the files, nor sends a mutating request, nor writes a CSV. *)
Definition read_only {A} (m : M A) : Prop :=
  forall w,
    let w' := snd (m w) in
    self w' = self w /\ stdin w' = stdin w /\ files w' = files w /\
    mutations (trace w') = mutations (trace w) /\
    csv_writes (trace w') = csv_writes (trace w).

(** The [i]-th chunk of [size] elements, [xs[size * i:size * (i + 1)]]. *)
Definition chunk {A} (size : nat) (xs : list A) (i : nat) : list A :=
  slice xs (size * i) (size * (i + 1)).

(** The simulated account with an authorization endpoint. *)
Definition auth_server (history : list event) (r : request) : response :=
  match r with
  | PostAuthorizationCode _ _ _ _ => mkResponse 200 (BRefreshToken "refresh")
  | _ => demo_server history r
  end.

(** The simulated account answering a batched album request with two
    short albums, their tracks inlined. *)
Definition inline_server (history : list event) (r : request) : response :=
  match r with
  | GetAlbums _ _ =>
      mkResponse 200
        (BSeveralAlbums [JFullAlbum.mk "z" 2 50 (firstn 2 demo_tracks);
                         JFullAlbum.mk "q" 1 50 (firstn 1 (skipn 2 demo_tracks))])
  | _ => demo_server history r
  end.

(** Two hundred candidate tracks, and the albums the ledger leaves. *)
Definition demo_pending : list TrackRow.t :=
  map (track_row "z") (firstn 200 demo_tracks).

Definition demo_remaining : list AlbumRow.t :=
  filter (fun a => negb (isin (AlbumRow.album_id a) (map Ledger.album_id demo_ledger)))
         demo_album_rows.

Definition all_but_follow (k : kind) : bool :=
  match k with KFollow => false | _ => true end.

(** The page requests of an offset loop that starts at [offset]. *)
Definition page_trace (request : Z -> request) (offset : Z) (n : nat) : list event :=
  map (fun k => Sent (request (offset + 50 * Z.of_nat k))) (seq 0 n).

(** The simulated account for an artist without albums. *)
Definition albumless_server (history : list event) (r : request) : response :=
  match r with
  | GetArtistAlbums _ _ _ => mkResponse 200 (BAlbums [] 0)
  | _ => demo_server history r
  end.

(** The simulated account whose batched album answers hold four tracks of
    album ["z"]: a song by ["A"], a second release of the same recording
    under another id, a track by somebody else, and a track whose id the
    ledger already holds. *)
Definition remaster_tracks : list JTrack.t :=
  [JTrack.mk "Song" "t1" "uri1" [JArtistRef.mk "A" "Artist"] 1 1 true 180000;
   JTrack.mk "Song" "t2" "uri2" [JArtistRef.mk "A" "Artist"] 1 1 true 180000;
   JTrack.mk "Other" "t3" "uri3" [JArtistRef.mk "B" "Somebody"] 1 2 true 200000;
   JTrack.mk "Old" "reviewed0" "uri4" [JArtistRef.mk "A" "Artist"] 1 3 true 210000].

Definition remaster_server (history : list event) (r : request) : response :=
  match r with
  | GetAlbums _ _ =>
      mkResponse 200 (BSeveralAlbums [JFullAlbum.mk "z" 4 50 remaster_tracks])
  | _ => demo_server history r
  end.

(** An offset-paginated endpoint serving the JSON objects [all]
    consistently: the answer to the request at offset [50 * k] has the body
    [mk items total] with the objects from there on, at most 50, as [items]
    and [total = len(all)]. *)
Definition serves_pages {J} (server : list event -> request -> response)
    (request : Z -> request) (mk : list J -> Z -> body) (all : list J) : Prop :=
  forall history (k : nat),
    json (server history (request (50 * Z.of_nat k)))
    = mk (slice all (50 * k) (50 * (k + 1))) (Z.of_nat (length all)).

(** 120 playlists, 120 playlist items and 120 album tracks for the
    multi-page account. *)
Definition paged_playlists : list JPlaylist.t :=
  map (fun i => JPlaylist.mk (char i) (char i)) (seq 0 120).

Definition paged_items : list JItem.t :=
  map (fun i => JItem.mk "2024-01-01" (char i) (char i) (char i)
                  [JArtistRef.mk "A" "Artist"] (JAlbumRef.mk "Album" "album-uri"))
      (seq 0 120).

Definition paged_tracks : list JTrack.t := firstn 120 demo_tracks.

(** The multi-page account: every paginated endpoint serves its resource
    50 at a time. *)
Definition library_server (history : list event) (r : request) : response :=
  match r with
  | GetMyPlaylists _ offset =>
      mkResponse 200
        (BPlaylists (firstn 50 (skipn (Z.to_nat offset) paged_playlists)) 120)
  | GetPlaylistTracks _ _ offset =>
      mkResponse 200
        (BPlaylistItems (firstn 50 (skipn (Z.to_nat offset) paged_items)) 120)
  | GetAlbumTracks _ _ offset =>
      mkResponse 200
        (BTracks (firstn 50 (skipn (Z.to_nat offset) paged_tracks)) 120)
  | _ => paged_server history r
  end.

(** * Properties *)

(** ** Strings *)

Lemma prefix_iff (a s : string) :
  prefix a s = true <-> exists q, s = (a ++ q)%string.
Proof.
  revert s; induction a as [|c a IH]; intros s.
  - destruct s; simpl; split; eauto.
  - destruct s as [|d s]; simpl.
    + split; [discriminate | intros [q Hq]; discriminate].
    + destruct (ascii_dec c d) as [->|Hne].
      * rewrite IH. split; intros [q Hq]; exists q; congruence.
      * split; [discriminate | intros [q Hq]; congruence].
Qed.

(** [str_in] is Python's substring test. *)
Lemma str_in_iff (a s : string) :
  str_in a s = true <-> exists p q, s = (p ++ a ++ q)%string.
Proof.
  induction s as [|c s IH].
  - cbn [str_in]. destruct (prefix a "") eqn:Hp.
    + apply prefix_iff in Hp as [q Hq]. split; [|easy].
      intros _. exists "", q. exact Hq.
    + split; [discriminate|]. intros (p & q & H).
      destruct p; simpl in H; [|discriminate].
      assert (prefix a "" = true) by (apply prefix_iff; eauto). congruence.
  - cbn [str_in]. destruct (prefix a (String c s)) eqn:Hp.
    + apply prefix_iff in Hp as [q Hq]. split; [|easy].
      intros _. exists "", q. exact Hq.
    + rewrite IH. split.
      * intros (p & q & ->). exists (String c p), q. reflexivity.
      * intros (p & q & H). destruct p as [|d p]; simpl in H.
        -- assert (prefix a (String c s) = true) by (apply prefix_iff; eauto).
           congruence.
        -- injection H as _ ->. eauto.
Qed.

Lemma isin_iff (x : string) (xs : list string) : isin x xs = true <-> In x xs.
Proof.
  unfold isin. rewrite existsb_exists. split.
  - intros (y & Hy & E). apply String.eqb_eq in E. now subst.
  - intros H. exists x. split; [assumption | apply String.eqb_refl].
Qed.

Lemma ledger_eqb_eq (a b : Ledger.t) : Ledger.eqb a b = true <-> a = b.
Proof.
  destruct a, b. unfold Ledger.eqb. simpl.
  rewrite andb_true_iff, !String.eqb_eq. split; [intros []|intros [=]]; now subst.
Qed.

Lemma dedup_key_eqb_eq (a b : string * string * Z) :
  dedup_key_eqb a b = true <-> a = b.
Proof.
  destruct a as [[n1 a1] l1], b as [[n2 a2] l2]. unfold dedup_key_eqb.
  rewrite !andb_true_iff, !String.eqb_eq, Z.eqb_eq.
  split; [intros [[] ?]|intros [=]]; now subst.
Qed.

(** ** The monad *)

Lemma bind_ret_inv {A B} (m : M A) (k : A -> M B) w b w' :
  bind m k w = (Ret b, w') ->
  exists a w1, m w = (Ret a, w1) /\ k a w1 = (Ret b, w').
Proof.
  unfold bind. destruct (m w) as [[a|e|] w1]; intros H; try discriminate; eauto.
Qed.

Lemma bind_eq {A B} (m : M A) (k : A -> M B) w a w1 :
  m w = (Ret a, w1) -> bind m k w = k a w1.
Proof. unfold bind. now intros ->. Qed.

(** ** Frames *)

Lemma step_refl allowed w : step allowed w w.
Proof.
  repeat split. exists []. now rewrite app_nil_r.
Qed.

Lemma step_trans allowed w1 w2 w3 :
  step allowed w1 w2 -> step allowed w2 w3 -> step allowed w1 w3.
Proof.
  intros (S1 & I1 & F1 & n1 & T1 & P1) (S2 & I2 & F2 & n2 & T2 & P2).
  repeat split; try congruence.
  exists (n1 ++ n2). split.
  - now rewrite T2, T1, app_assoc.
  - now apply Forall_app.
Qed.

Section Emits.

Variable server : list event -> request -> response.
Variable clock : list event -> Z.
Variable allowed : kind -> bool.

Lemma emits_ret {A} (a : A) : emits allowed (ret a).
Proof. intros w. apply step_refl. Qed.

Lemma emits_raise {A} e : emits allowed (@raise A e).
Proof. intros w. apply step_refl. Qed.

Lemma emits_timeout {A} : emits allowed (@timeout A).
Proof. intros w. apply step_refl. Qed.

Lemma emits_lift {A} (o : outcome A) : emits allowed (lift o).
Proof. intros w. apply step_refl. Qed.

Lemma emits_get_self : emits allowed get_self.
Proof. intros w. apply step_refl. Qed.

Lemma emits_time_time : emits allowed (time_time clock).
Proof. intros w. apply step_refl. Qed.

Lemma emits_read_csv path : emits allowed (read_csv path).
Proof. intros w. unfold read_csv. destruct (files w path); apply step_refl. Qed.

Lemma emits_send r : allowed (kind_of r) = true -> emits allowed (send server r).
Proof.
  intros H w. repeat split. exists [Sent r]. split; [reflexivity|].
  constructor; [exact H | constructor].
Qed.

Lemma emits_bind {A B} (m : M A) (k : A -> M B) :
  emits allowed m -> (forall a, emits allowed (k a)) -> emits allowed (bind m k).
Proof.
  intros Hm Hk w. unfold bind. specialize (Hm w).
  destruct (m w) as [[a|e|] w1]; simpl in *; try assumption.
  eapply step_trans; [eassumption | apply Hk].
Qed.

Lemma emits_for_each {A} (xs : list A) (f : A -> M unit) :
  (forall x, emits allowed (f x)) -> emits allowed (for_each xs f).
Proof.
  intros Hf. induction xs as [|x xs IH]; simpl.
  - apply emits_ret.
  - apply emits_bind; auto.
Qed.

Lemma emits_collect {A B} (xs : list A) (f : A -> M B) :
  (forall x, emits allowed (f x)) -> emits allowed (collect xs f).
Proof.
  intros Hf. induction xs as [|x xs IH]; simpl.
  - apply emits_ret.
  - apply emits_bind; [auto|]. intros y.
    apply emits_bind; [auto|]. intros ys. apply emits_ret.
Qed.

End Emits.

Create HintDb emits.

#[export] Hint Resolve emits_ret emits_raise emits_timeout emits_lift
  emits_get_self emits_time_time emits_read_csv emits_for_each emits_collect
  : emits.

(** One step of the syntax-directed proof that an operation only sends
    requests of the allowed kinds. *)
Ltac emits_step :=
  match goal with
  | |- emits _ (bind _ _) => apply emits_bind; [|intros]
  | |- emits _ (send _ _) => apply emits_send; simpl; assumption
  | |- emits _ (match ?x with _ => _ end) => destruct x
  | |- emits _ _ => solve [eauto with emits]
  end.

Ltac emits_auto := repeat emits_step.

Section EmitsOperations.

Variable server : list event -> request -> response.
Variable clock : list event -> Z.
Variable allowed : kind -> bool.
Hypothesis refresh_allowed : allowed KRefresh = true.

Lemma emits_get_access_token : emits allowed (get_access_token server clock).
Proof. unfold get_access_token. emits_auto. Qed.

Lemma emits_refresh_if_close : emits allowed (refresh_if_close server clock).
Proof.
  pose proof emits_get_access_token.
  unfold refresh_if_close. emits_auto.
Qed.

Lemma emits_check_access_token {A} (func : M A) :
  emits allowed func -> emits allowed (check_access_token server clock func).
Proof.
  intros H. pose proof emits_refresh_if_close.
  unfold check_access_token. emits_auto.
Qed.

Lemma emits_offset_loop {R} (request : Z -> request) page fuel :
  (forall offset, allowed (kind_of (request offset)) = true) ->
  forall (rows : list R) offset,
    emits allowed (offset_loop server request page fuel rows offset).
Proof.
  intros Hk. induction fuel as [|fuel IH]; intros rows offset; simpl.
  - emits_auto.
  - apply emits_bind; [apply emits_send, Hk|]. intros response.
    destruct (page (json response)) as [[data total]|]; [|emits_auto].
    destruct (_ =? _); [emits_auto | apply IH].
Qed.

Lemma emits_get_current_user_playlists fuel :
  allowed KPlaylists = true ->
  emits allowed (get_current_user_playlists server clock fuel).
Proof.
  intros H. apply emits_check_access_token. emits_auto.
  apply emits_offset_loop. intros; assumption.
Qed.

Lemma emits_get_artists_albums fuel artist_id :
  allowed KArtistAlbums = true ->
  emits allowed (get_artists_albums server clock fuel artist_id).
Proof.
  intros H. apply emits_check_access_token. emits_auto.
  apply emits_offset_loop. intros; assumption.
Qed.

Lemma emits_get_albums_tracks fuel album_id :
  allowed KAlbumTracks = true ->
  emits allowed (get_albums_tracks server clock fuel album_id).
Proof.
  intros H. apply emits_check_access_token. emits_auto.
  apply emits_offset_loop. intros; assumption.
Qed.

Lemma emits_get_several_albums_tracks fuel album_ids :
  allowed KAlbums = true -> allowed KAlbumTracks = true ->
  emits allowed (get_several_albums_tracks server clock fuel album_ids).
Proof.
  intros H1 H2. apply emits_check_access_token.
  assert (forall album, emits allowed (album_tracks server clock fuel album)).
  { intros album. unfold album_tracks.
    destruct (_ <=? _); [now apply emits_get_albums_tracks | emits_auto]. }
  emits_auto.
Qed.

Lemma emits_add_items_to_playlist playlist_id track_uris :
  allowed KAdd = true ->
  emits allowed (add_items_to_playlist server clock playlist_id track_uris).
Proof. intros H. apply emits_check_access_token. emits_auto. Qed.

Lemma emits_follow_artist artist_id :
  allowed KFollow = true ->
  emits allowed (follow_artist server clock artist_id).
Proof. intros H. apply emits_check_access_token. emits_auto. Qed.

Lemma emits_review_load fuel artist_id path :
  allowed KPlaylists = true -> allowed KArtistAlbums = true ->
  emits allowed (review_load server clock fuel artist_id path).
Proof.
  intros H1 H2.
  pose proof (emits_get_current_user_playlists fuel H1).
  pose proof (emits_get_artists_albums fuel artist_id H2).
  unfold review_load. emits_auto.
Qed.

Lemma emits_review_fetch fuel album_count albums :
  allowed KAlbums = true -> allowed KAlbumTracks = true ->
  emits allowed (review_fetch server clock fuel album_count albums).
Proof.
  intros H1 H2.
  pose proof (fun ids => emits_get_several_albums_tracks fuel ids H1 H2).
  unfold review_fetch. emits_auto.
Qed.

Lemma emits_review_candidates fuel artist_id path :
  allowed KPlaylists = true -> allowed KArtistAlbums = true ->
  allowed KAlbums = true -> allowed KAlbumTracks = true ->
  emits allowed (review_candidates server clock fuel artist_id path).
Proof.
  intros H1 H2 H3 H4.
  pose proof (emits_review_load fuel artist_id path H1 H2).
  pose proof (fun n a => emits_review_fetch fuel n a H3 H4).
  unfold review_candidates. emits_auto.
Qed.

Lemma emits_review_upload playlist_id pending :
  allowed KAdd = true ->
  emits allowed (review_upload server clock playlist_id pending).
Proof.
  intros H.
  pose proof (fun uris => emits_add_items_to_playlist playlist_id uris H).
  unfold review_upload. emits_auto.
Qed.

End EmitsOperations.

(** ** Running an operation *)

Lemma emits_run {A} allowed (m : M A) w r w' :
  emits allowed m -> m w = (r, w') -> step allowed w w'.
Proof. intros H E. specialize (H w). now rewrite E in H. Qed.

Lemma step_observe {X} (obs : event -> list X) allowed w w' :
  step allowed w w' ->
  (forall e, permitted allowed e -> obs e = []) ->
  flat_map obs (trace w') = flat_map obs (trace w).
Proof.
  intros (_ & _ & _ & new & -> & Hnew) Hobs.
  rewrite flat_map_app.
  assert (flat_map obs new = []) as ->; [|apply app_nil_r].
  induction Hnew as [|e new He _ IH]; simpl; [reflexivity|].
  now rewrite (Hobs e He), IH.
Qed.

Lemma step_uploads allowed w w' :
  step allowed w w' -> allowed KAdd = false ->
  uploads (trace w') = uploads (trace w).
Proof.
  intros H Hk. apply (step_observe _ _ _ _ H).
  intros [[]|]; simpl; intros; try reflexivity; try contradiction; congruence.
Qed.

Lemma step_follows allowed w w' :
  step allowed w w' -> allowed KFollow = false ->
  follows (trace w') = follows (trace w).
Proof.
  intros H Hk. apply (step_observe _ _ _ _ H).
  intros [[]|]; simpl; intros; try reflexivity; try contradiction; congruence.
Qed.

Lemma step_albums_requests allowed w w' :
  step allowed w w' -> allowed KAlbums = false ->
  albums_requests (trace w') = albums_requests (trace w).
Proof.
  intros H Hk. apply (step_observe _ _ _ _ H).
  intros [[]|]; simpl; intros; try reflexivity; try contradiction; congruence.
Qed.

Lemma step_csv_writes allowed w w' :
  step allowed w w' -> csv_writes (trace w') = csv_writes (trace w).
Proof.
  intros H. apply (step_observe _ _ _ _ H).
  intros [[]|]; simpl; intros; try reflexivity; contradiction.
Qed.

Lemma step_requests allowed w w' (keep : request -> bool) :
  step allowed w w' ->
  (forall r, allowed (kind_of r) = true -> keep r = false) ->
  filter keep (requests (trace w')) = filter keep (requests (trace w)).
Proof.
  intros (_ & _ & _ & new & -> & Hnew) Hk.
  unfold requests. rewrite flat_map_app, filter_app.
  match goal with |- _ ++ ?x = _ => assert (x = []) as -> end;
    [|apply app_nil_r].
  induction Hnew as [|e new He _ IH]; simpl; [reflexivity|].
  destruct e as [r|]; simpl in *; [|contradiction].
  now rewrite (Hk r He).
Qed.

Lemma lift_inv {A} (o : outcome A) w a w' :
  lift o w = (Ret a, w') -> o = Ret a /\ w' = w.
Proof. unfold lift. now intros [= -> ->]. Qed.

Lemma ret_inv {A} (a b : A) w w' : ret a w = (Ret b, w') -> a = b /\ w' = w.
Proof. unfold ret. now intros [= -> ->]. Qed.

Lemma read_csv_inv path w rows w' :
  read_csv path w = (Ret rows, w') -> files w path = Some rows /\ w' = w.
Proof.
  unfold read_csv. destruct (files w path); [|discriminate]. now intros [= -> ->].
Qed.

Tactic Notation "bind_inv" hyp(H) :=
  let a := fresh "a" in
  let w := fresh "w" in
  let E := fresh "E" in
  apply bind_ret_inv in H as (a & w & E & H).

Tactic Notation "bind_inv" hyp(H) "as" ident(a) ident(w) ident(E) :=
  apply bind_ret_inv in H as (a & w & E & H).

Section Workflow.

Variable server : list event -> request -> response.
Variable clock : list event -> Z.

Lemma review_load_inv fuel artist_id path w pid reviewed albums w' :
  review_load server clock fuel artist_id path w = (Ret (pid, reviewed, albums), w') ->
  exists playlists wp,
    get_current_user_playlists server clock fuel w = (Ret playlists, wp) /\
    pending_review_playlist_id playlists = Ret pid /\
    files wp path = Some reviewed /\
    get_artists_albums server clock fuel artist_id wp = (Ret albums, w').
Proof.
  unfold review_load. intros H.
  bind_inv H. bind_inv H. apply lift_inv in E0 as [Hp ->].
  bind_inv H. apply read_csv_inv in E0 as [Hf ->].
  bind_inv H. apply ret_inv in H as [[= -> -> ->] ->].
  eauto 10.
Qed.

Lemma review_candidates_inv fuel artist_id path w pid reviewed tracks pending w' :
  review_candidates server clock fuel artist_id path w
  = (Ret (pid, reviewed, tracks, pending), w') ->
  exists albums wl remaining fetched,
    review_load server clock fuel artist_id path w
    = (Ret (pid, reviewed, albums), wl) /\
    remove_reviewed_albums albums reviewed = Ret remaining /\
    review_fetch server clock fuel (length albums) remaining wl = (Ret fetched, w') /\
    remove_irrelevant_tracks artist_id reviewed fetched = Ret tracks /\
    pending = pending_review tracks.
Proof.
  unfold review_candidates. intros H.
  bind_inv H. destruct a as [[pid' reviewed'] albums].
  bind_inv H. apply lift_inv in E0 as [Hr ->].
  bind_inv H. bind_inv H. apply lift_inv in E1 as [Hi ->].
  apply ret_inv in H as [[= -> -> -> ->] ->].
  eauto 10.
Qed.

(** A run that returns went through the guard, the gathering of
    candidates and the prompt; it committed exactly when the answer was
    ["Y"]. *)
Lemma review_run_inv fuel artist_id path w w' :
  review_artist_discography server clock fuel artist_id path w = (Ret tt, w') ->
  exists w0 w1 pid reviewed tracks pending answer rest,
    refresh_if_close server clock w = (Ret tt, w0) /\
    review_candidates server clock fuel artist_id path w0
    = (Ret (pid, reviewed, tracks, pending), w1) /\
    stdin w1 = answer :: rest /\
    let w2 := mkWorld (self w1) (trace w1) rest (files w1) in
    (answer <> "Y" /\ w' = w2 \/
     answer = "Y" /\
     review_commit server clock artist_id path pid reviewed tracks pending w2
     = (Ret tt, w')).
Proof.
  unfold review_artist_discography, check_access_token. intros H.
  bind_inv H. destruct a. bind_inv H.
  destruct a as [[[pid reviewed] tracks] pending].
  bind_inv H. unfold input in E1.
  destruct (stdin w1) as [|line rest] eqn:Hin; [discriminate|].
  injection E1 as -> <-.
  exists w0, w1, pid, reviewed, tracks, pending, a, rest.
  repeat split; try assumption.
  destruct (String.eqb a "Y") eqn:Ha; simpl in H.
  - apply String.eqb_eq in Ha. right. split; assumption.
  - apply String.eqb_neq in Ha. apply ret_inv in H as [_ ->]. left. now split.
Qed.

Lemma review_commit_inv artist_id path pid reviewed tracks pending w w' :
  review_commit server clock artist_id path pid reviewed tracks pending w
  = (Ret tt, w') ->
  exists wu,
    review_upload server clock pid pending w = (Ret tt, wu) /\
    follow_artist server clock artist_id
      (snd (to_csv path (updated_reviewed reviewed tracks) wu))
    = (Ret tt, w').
Proof.
  unfold review_commit. intros H.
  bind_inv H. destruct a. bind_inv H. unfold to_csv in E0.
  injection E0 as <- <-. exists w0. split; assumption.
Qed.

End Workflow.

(** ** The confirmation prompt *)

Section Prompt.

Variable server : list event -> request -> response.
Variable clock : list event -> Z.

(** C3.  When the line read at the confirmation prompt is anything but
    exactly ["Y"] (or there is no line to read), the run of
    [review_artist_discography] leaves no side effect behind, whatever the
    service answers: no [add_items_to_playlist] request has been sent, no
    CSV has been written and the files are as they were, and
    [follow_artist] has sent nothing. *)
Theorem declined_review_has_no_side_effects fuel artist_id path w :
  (forall rest, stdin w <> "Y" :: rest) ->
  let w' := snd (review_artist_discography server clock fuel artist_id path w) in
  uploads (trace w') = uploads (trace w) /\
  csv_writes (trace w') = csv_writes (trace w) /\
  files w' = files w /\
  follows (trace w') = follows (trace w).
Proof.
  intros Hin.
  assert (forall w1, step only_reads w w1 ->
            uploads (trace w1) = uploads (trace w) /\
            csv_writes (trace w1) = csv_writes (trace w) /\
            files w1 = files w /\
            follows (trace w1) = follows (trace w)) as Hquiet.
  { intros w1 H. repeat split.
    - now apply (step_uploads _ _ _ H).
    - now apply (step_csv_writes _ _ _ H).
    - apply H.
    - now apply (step_follows _ _ _ H). }
  unfold review_artist_discography, check_access_token, bind.
  destruct (refresh_if_close server clock w) as [[[]|e|] w0] eqn:E0;
    pose proof (emits_run only_reads _ _ _ _
                  (emits_refresh_if_close server clock _ eq_refl) E0) as S0;
    simpl; auto.
  destruct (review_candidates server clock fuel artist_id path w0)
    as [[[[[pid reviewed] tracks] pending]|e|] w1] eqn:E1;
    pose proof (emits_run only_reads _ _ _ _
                  (emits_review_candidates server clock _ eq_refl fuel artist_id
                     path eq_refl eq_refl eq_refl eq_refl) E1) as S1;
    pose proof (step_trans _ _ _ _ S0 S1) as S;
    simpl; auto.
  assert (stdin w1 = stdin w) as Hs
    by (destruct S0 as (_ & I0 & _), S1 as (_ & I1 & _); congruence).
  unfold input. rewrite Hs.
  destruct (stdin w) as [|line rest] eqn:Hw; simpl; auto.
  destruct (String.eqb line "Y") eqn:Hy; simpl.
  - apply String.eqb_eq in Hy. subst line. now destruct (Hin rest).
  - apply (Hquiet w1 S).
Qed.

End Prompt.

Lemma declined_review_witness :
  let w' := snd (review_artist_discography demo_server demo_clock 5 "A"
                   "reviewed.csv" (demo_world "y")) in
  uploads (trace w') = uploads (trace (demo_world "y")) /\
  csv_writes (trace w') = csv_writes (trace (demo_world "y")) /\
  files w' = files (demo_world "y") /\
  follows (trace w') = follows (trace (demo_world "y")).
Proof.
  apply (declined_review_has_no_side_effects demo_server demo_clock 5 "A"
           "reviewed.csv" (demo_world "y")).
  intros rest. simpl. discriminate.
Defined.

(** ** Deduplicating rows *)

Lemma drop_duplicates_from_spec rows : forall seen row,
  In row (drop_duplicates_from seen rows) <-> In row rows /\ ~ In row seen.
Proof.
  induction rows as [|r rows IH]; intros seen row; simpl.
  - tauto.
  - destruct (existsb (Ledger.eqb r) seen) eqn:E.
    + apply existsb_exists in E as (r' & Hin & Heq).
      apply ledger_eqb_eq in Heq. subst r'.
      rewrite IH. split; [tauto|]. intros [[->|H] Hn]; tauto.
    + assert (~ In r seen) as Hr.
      { intros Hin. apply not_true_iff_false in E. apply E.
        apply existsb_exists. exists r. split; [assumption|].
        now apply ledger_eqb_eq. }
      simpl. rewrite IH. simpl. split.
      * intros [->|[H Hn]]; [tauto|]. split; [tauto|]. intros Hs. apply Hn. tauto.
      * intros [[->|H] Hn]; [tauto|].
        destruct (Ledger.eqb r row) eqn:Er.
        -- apply ledger_eqb_eq in Er. tauto.
        -- assert (r <> row) as Hne
             by (intros Heq; apply ledger_eqb_eq in Heq; congruence).
           tauto.
Qed.

Lemma drop_duplicates_from_NoDup rows : forall seen,
  NoDup (drop_duplicates_from seen rows).
Proof.
  induction rows as [|r rows IH]; intros seen; simpl.
  - constructor.
  - destruct (existsb (Ledger.eqb r) seen); [apply IH|].
    constructor; [|apply IH].
    rewrite drop_duplicates_from_spec. simpl. tauto.
Qed.


(** ** What the batched calls leave in the trace *)

Section Batches.

Variable server : list event -> request -> response.
Variable clock : list event -> Z.

Lemma refresh_if_close_inv w w0 :
  refresh_if_close server clock w = (Ret tt, w0) -> step only_refresh w w0.
Proof.
  apply emits_run. now apply emits_refresh_if_close.
Qed.

Lemma add_items_uploads playlist_id uris w w' :
  add_items_to_playlist server clock playlist_id uris w = (Ret tt, w') ->
  uploads (trace w') = uploads (trace w) ++ [(playlist_id, uris)].
Proof.
  unfold add_items_to_playlist, check_access_token. intros H.
  bind_inv H as u w0 E. destruct u. apply refresh_if_close_inv in E.
  bind_inv H as c w1 Ec. injection Ec as <- <-.
  bind_inv H as r w2 Es. injection Es as _ <-. apply ret_inv in H as [_ ->].
  simpl. unfold uploads at 1. rewrite flat_map_app. simpl.
  fold (uploads (trace w0)). now rewrite (step_uploads _ _ _ E).
Qed.

Lemma get_several_albums_requests fuel album_ids w tracks w' :
  get_several_albums_tracks server clock fuel album_ids w = (Ret tracks, w') ->
  albums_requests (trace w') = albums_requests (trace w) ++ [album_ids].
Proof.
  unfold get_several_albums_tracks, check_access_token. intros H.
  bind_inv H as u w0 E. destruct u. apply refresh_if_close_inv in E.
  bind_inv H as c w1 Ec. injection Ec as <- <-.
  bind_inv H as r w2 Es. injection Es as <- <-.
  destruct (json _); try discriminate.
  bind_inv H as ts w3 Et. apply ret_inv in H as [_ ->].
  assert (step all_but_albums
            (mkWorld (self w0)
               (trace w0 ++ [Sent (GetAlbums (access_token (self w0)) album_ids)])
               (stdin w0) (files w0)) w3) as S.
  { eapply emits_run; [|exact Et]. apply emits_collect. intros album.
    unfold album_tracks.
    destruct (_ <=? _); [now apply emits_get_albums_tracks | apply emits_ret]. }
  rewrite (step_albums_requests _ _ _ S eq_refl). simpl.
  unfold albums_requests at 1. rewrite flat_map_app. simpl.
  fold (albums_requests (trace w0)).
  now rewrite (step_albums_requests _ _ _ E).
Qed.

(** 250 candidates go up in three calls of 100, 100 and 50 URIs. *)
Lemma review_upload_250 playlist_id pending w w' :
  length pending = 250%nat ->
  review_upload server clock playlist_id pending w = (Ret tt, w') ->
  let uris := map TrackRow.track_uri pending in
  uploads (trace w')
  = uploads (trace w) ++ [(playlist_id, firstn 100 uris);
                          (playlist_id, firstn 100 (skipn 100 uris));
                          (playlist_id, skipn 200 uris)].
Proof.
  intros Hlen H uris. unfold review_upload in H. rewrite Hlen in H.
  change (range (250 / 100 + 1)) with [0; 1; 2]%nat in H.
  cbn [for_each] in H.
  bind_inv H as u1 w1 E. destruct u1. apply add_items_uploads in E.
  bind_inv H as u2 w2 E0. destruct u2. apply add_items_uploads in E0.
  bind_inv H as u3 w3 E1. destruct u3. apply add_items_uploads in E1.
  apply ret_inv in H as [_ ->].
  rewrite E1, E0, E, <- !app_assoc. simpl.
  change (track_uris_batch pending 0) with (firstn 100 uris).
  change (track_uris_batch pending 1) with (firstn 100 (skipn 100 uris)).
  change (track_uris_batch pending 2) with (firstn 100 (skipn 200 uris)).
  rewrite (firstn_all2 (n := 100) (skipn 200 uris)); [reflexivity|].
  unfold uris. rewrite length_skipn, length_map, Hlen. lia.
Qed.



End Batches.

(** ** The confirmed run *)

Section Confirmed.

Variable server : list event -> request -> response.
Variable clock : list event -> Z.

(** C9.  In a run that gathers exactly 250 deduplicated candidates, is
    confirmed with ["Y"] and returns, the upload phase sends exactly three
    [add_items_to_playlist] requests to the Pending Review playlist: the
    first 100 URIs, the next 100 and the last 50, in this order. *)
Theorem confirmed_review_uploads_250_in_three_batches
    fuel artist_id path w w0 w1 w' pid reviewed tracks pending rest :
  refresh_if_close server clock w = (Ret tt, w0) ->
  review_candidates server clock fuel artist_id path w0
  = (Ret (pid, reviewed, tracks, pending), w1) ->
  length pending = 250%nat ->
  stdin w = "Y" :: rest ->
  review_artist_discography server clock fuel artist_id path w = (Ret tt, w') ->
  let uris := map TrackRow.track_uri pending in
  uploads (trace w')
  = uploads (trace w) ++ [(pid, firstn 100 uris);
                          (pid, firstn 100 (skipn 100 uris));
                          (pid, skipn 200 uris)] /\
  length (firstn 100 uris) = 100%nat /\
  length (firstn 100 (skipn 100 uris)) = 100%nat /\
  length (skipn 200 uris) = 50%nat.
Proof.
  intros H0 H1 Hlen Hin Hrun uris. split.
  - apply review_run_inv in Hrun
      as (w0' & w1' & pid' & reviewed' & tracks' & pending' & answer & rest'
          & H0' & H1' & Hin' & Hcase).
    rewrite H0 in H0'. injection H0' as <-.
    rewrite H1 in H1'. injection H1' as <- <- <- <- <-.
    pose proof (refresh_if_close_inv _ _ _ _ H0) as S0.
    pose proof (emits_run only_reads _ _ _ _
                  (emits_review_candidates server clock _ eq_refl fuel artist_id
                     path eq_refl eq_refl eq_refl eq_refl) H1) as S1.
    assert (stdin w1 = stdin w) as Hs
      by (destruct S0 as (_ & I0 & _), S1 as (_ & I1 & _); congruence).
    rewrite Hs, Hin in Hin'. injection Hin' as <- <-.
    cbv zeta in Hcase. destruct Hcase as [[Hne _]|[_ Hc]]; [now destruct Hne|].
    apply review_commit_inv in Hc as (wu & Hu & Hf).
    apply (emits_run all_but_add) in Hf; [|now apply emits_follow_artist].
    rewrite (step_uploads _ _ _ Hf eq_refl). simpl.
    unfold uploads at 1. rewrite flat_map_app. simpl. rewrite app_nil_r.
    fold (uploads (trace wu)).
    rewrite (review_upload_250 _ _ _ _ _ _ Hlen Hu). simpl.
    now rewrite (step_uploads _ _ _ S1 eq_refl), (step_uploads _ _ _ S0 eq_refl).
  - unfold uris.
    rewrite !length_firstn, !length_skipn, !length_map, Hlen. lia.
Qed.


(** The tracks left by the two filters, spelled out. *)
Lemma filtered_track_iff artist_id reviewed fetched t :
  In t (not_yet_reviewed reviewed (features_artist artist_id fetched))
  <-> In t fetched /\
      (exists p q, TrackRow.track_artist_ids t = (p ++ artist_id ++ q)%string) /\
      ~ In (TrackRow.track_id t) (map Ledger.track_id reviewed).
Proof.
  unfold not_yet_reviewed, features_artist.
  rewrite !filter_In, str_in_iff, negb_true_iff, <- not_true_iff_false, isin_iff.
  tauto.
Qed.

(** C4.  A run confirmed with ["Y"] that returns has loaded the ledger
    [reviewed] from [path], fetched the tracks [fetched] with its batched
    requests, and written to [path] a ledger [written] without repeated
    rows whose rows are exactly: the rows of [reviewed], and the pair
    [(track_id, album_id)] of every fetched track that features the artist
    and whose [track_id] the loaded ledger does not hold -- every such
    track, whether the deduplication kept it for upload or not.  [written]
    is the loaded ledger followed by those pairs, first occurrences kept. *)
Theorem confirmed_review_persists_merged_ledger fuel artist_id path w w' rest :
  stdin w = "Y" :: rest ->
  review_artist_discography server clock fuel artist_id path w = (Ret tt, w') ->
  exists w0 wl w1 pid reviewed albums remaining fetched written,
    refresh_if_close server clock w = (Ret tt, w0) /\
    review_load server clock fuel artist_id path w0
    = (Ret (pid, reviewed, albums), wl) /\
    remove_reviewed_albums albums reviewed = Ret remaining /\
    review_fetch server clock fuel (length albums) remaining wl = (Ret fetched, w1) /\
    files w path = Some reviewed /\
    files w' path = Some written /\
    csv_writes (trace w') = csv_writes (trace w) ++ [(path, written)] /\
    NoDup written /\
    (forall row,
        In row written
        <-> In row reviewed \/
            exists t,
              In t fetched /\
              (exists p q,
                  TrackRow.track_artist_ids t = (p ++ artist_id ++ q)%string) /\
              ~ In (TrackRow.track_id t) (map Ledger.track_id reviewed) /\
              row = Ledger.mk (TrackRow.track_id t) (TrackRow.album_id t)) /\
    written
    = drop_duplicates
        (reviewed
         ++ map (fun t => Ledger.mk (TrackRow.track_id t) (TrackRow.album_id t))
              (not_yet_reviewed reviewed (features_artist artist_id fetched))).
Proof.
  intros Hin Hrun.
  apply review_run_inv in Hrun
    as (w0 & w1 & pid & reviewed & tracks & pending & answer & rest'
        & H0 & Hc & Hin' & Hcase).
  pose proof (refresh_if_close_inv _ _ _ _ H0) as S0.
  pose proof (emits_run only_reads _ _ _ _
                (emits_review_candidates server clock _ eq_refl fuel artist_id
                   path eq_refl eq_refl eq_refl eq_refl) Hc) as S1.
  assert (stdin w1 = stdin w) as Hs
    by (destruct S0 as (_ & I0 & _), S1 as (_ & I1 & _); congruence).
  rewrite Hs, Hin in Hin'. injection Hin' as <- <-.
  cbv zeta in Hcase. destruct Hcase as [[Hne _]|[_ Hcommit]]; [now destruct Hne|].
  apply review_candidates_inv in Hc
    as (albums & wl & remaining & fetched & Hl & Hrem & Hfetch & Hirr & Hpend).
  pose proof Hl as Hl'.
  apply review_load_inv in Hl' as (playlists & wp & Hp & _ & Hfile & _).
  apply (emits_run only_reads) in Hp;
    [|now apply emits_get_current_user_playlists].
  unfold remove_irrelevant_tracks in Hirr.
  destruct fetched as [|t0 fetched0] eqn:Hfetched; [discriminate|].
  rewrite <- Hfetched in *. injection Hirr as Htracks.
  apply review_commit_inv in Hcommit as (wu & Hu & Hf).
  apply (emits_run all_but_albums) in Hu; [|now apply emits_review_upload].
  apply (emits_run all_but_albums) in Hf; [|now apply emits_follow_artist].
  exists w0, wl, w1, pid, reviewed, albums, remaining, fetched,
    (updated_reviewed reviewed tracks).
  split; [exact H0|]. split; [exact Hl|]. split; [exact Hrem|].
  split; [exact Hfetch|].
  split; [destruct S0 as (_ & _ & F0 & _), Hp as (_ & _ & Fp & _); congruence|].
  split; [destruct Hf as (_ & _ & -> & _); simpl; now rewrite String.eqb_refl|].
  split.
  { rewrite (step_csv_writes _ _ _ Hf). simpl.
    unfold csv_writes at 1. rewrite flat_map_app. simpl.
    fold (csv_writes (trace wu)).
    rewrite (step_csv_writes _ _ _ Hu). simpl.
    now rewrite (step_csv_writes _ _ _ S1), (step_csv_writes _ _ _ S0). }
  split; [apply drop_duplicates_from_NoDup|].
  split; [|now rewrite <- Htracks].
  intros row. unfold updated_reviewed, drop_duplicates.
  rewrite drop_duplicates_from_spec, in_app_iff. unfold ledger_rows.
  rewrite in_map_iff, <- Htracks. split.
  - intros [[H|(t & <- & Ht)] _]; [now left|]. right.
    apply filtered_track_iff in Ht as (H1 & H2 & H3). eauto 10.
  - intros [H|(t & H1 & H2 & H3 & ->)]; (split; [|easy]); [now left|]. right.
    exists t. split; [reflexivity|]. now apply filtered_track_iff.
Qed.

End Confirmed.

Lemma confirmed_review_uploads_250_witness :
  let w' := snd (review_artist_discography demo_server demo_clock 5 "A"
                   "reviewed.csv" (demo_world "Y")) in
  let uris := map TrackRow.track_uri (pending_review demo_filtered) in
  uploads (trace w')
  = uploads (trace (demo_world "Y")) ++ [("P2", firstn 100 uris);
                                         ("P2", firstn 100 (skipn 100 uris));
                                         ("P2", skipn 200 uris)] /\
  length (firstn 100 uris) = 100%nat /\
  length (firstn 100 (skipn 100 uris)) = 100%nat /\
  length (skipn 200 uris) = 50%nat.
Proof.
  apply (confirmed_review_uploads_250_in_three_batches demo_server demo_clock
           5 "A" "reviewed.csv" (demo_world "Y") (demo_world "Y")
           (snd (review_candidates demo_server demo_clock 5 "A" "reviewed.csv"
                   (demo_world "Y")))
           _ "P2" demo_ledger demo_filtered (pending_review demo_filtered) []);
    vm_compute; reflexivity.
Defined.


Lemma confirmed_review_ledger_witness :
  exists w0 wl w1 pid reviewed albums remaining fetched written,
    refresh_if_close remaster_server demo_clock (demo_world "Y") = (Ret tt, w0) /\
    review_load remaster_server demo_clock 5 "A" "reviewed.csv" w0
    = (Ret (pid, reviewed, albums), wl) /\
    remove_reviewed_albums albums reviewed = Ret remaining /\
    review_fetch remaster_server demo_clock 5 (length albums) remaining wl
    = (Ret fetched, w1) /\
    files (demo_world "Y") "reviewed.csv" = Some reviewed /\
    files (snd (review_artist_discography remaster_server demo_clock 5 "A"
                  "reviewed.csv" (demo_world "Y"))) "reviewed.csv"
    = Some written /\
    csv_writes (trace (snd (review_artist_discography remaster_server demo_clock 5
                              "A" "reviewed.csv" (demo_world "Y"))))
    = csv_writes (trace (demo_world "Y")) ++ [("reviewed.csv", written)] /\
    NoDup written /\
    (forall row,
        In row written
        <-> In row reviewed \/
            exists t,
              In t fetched /\
              (exists p q, TrackRow.track_artist_ids t = (p ++ "A" ++ q)%string) /\
              ~ In (TrackRow.track_id t) (map Ledger.track_id reviewed) /\
              row = Ledger.mk (TrackRow.track_id t) (TrackRow.album_id t)) /\
    written
    = drop_duplicates
        (reviewed
         ++ map (fun t => Ledger.mk (TrackRow.track_id t) (TrackRow.album_id t))
              (not_yet_reviewed reviewed (features_artist "A" fetched))).
Proof.
  apply (confirmed_review_persists_merged_ledger remaster_server demo_clock 5 "A"
           "reviewed.csv" (demo_world "Y") _ []);
    vm_compute; reflexivity.
Defined.

(** On that account the second release ["t2"] is dropped from the upload
    as a duplicate of ["t1"], yet both pairs are written; the track by
    somebody else and the track already in the ledger are not. *)
Example remaster_run_records_both_releases :
  let w' := snd (review_artist_discography remaster_server demo_clock 5 "A"
                   "reviewed.csv" (demo_world "Y")) in
  files w' "reviewed.csv"
  = Some (demo_ledger ++ [Ledger.mk "t1" "z"; Ledger.mk "t2" "z"]) /\
  uploads (trace w') = [("P2", ["uri1"])].
Proof. split; vm_compute; reflexivity. Qed.

(** ** Deduplicating candidate tracks *)

Lemma seen_key_iff k seen :
  existsb (dedup_key_eqb k) seen = true <-> In k seen.
Proof.
  rewrite existsb_exists. split.
  - intros (k' & Hin & E). apply dedup_key_eqb_eq in E. now subst.
  - intros H. exists k. split; [assumption | now apply dedup_key_eqb_eq].
Qed.

Lemma drop_duplicated_snoc_seen tracks t : forall seen,
  In (dedup_key t) seen \/ In (dedup_key t) (map dedup_key tracks) ->
  drop_duplicated seen (tracks ++ [t]) = drop_duplicated seen tracks.
Proof.
  induction tracks as [|r tracks IH]; intros seen H; simpl.
  - destruct H as [H|[]]. apply seen_key_iff in H. now rewrite H.
  - destruct (existsb (dedup_key_eqb (dedup_key r)) seen) eqn:E.
    + apply IH. destruct H as [H|[H|H]]; auto.
      left. rewrite <- H. now apply seen_key_iff.
    + f_equal. apply IH. simpl. destruct H as [H|[H|H]]; auto.
Qed.

Lemma drop_duplicated_snoc_new tracks t : forall seen,
  ~ In (dedup_key t) seen -> ~ In (dedup_key t) (map dedup_key tracks) ->
  drop_duplicated seen (tracks ++ [t]) = drop_duplicated seen tracks ++ [t].
Proof.
  induction tracks as [|r tracks IH]; intros seen Hs Ht; simpl.
  - destruct (existsb _ seen) eqn:E; [|reflexivity].
    apply seen_key_iff in E. contradiction.
  - simpl in Ht.
    destruct (existsb (dedup_key_eqb (dedup_key r)) seen) eqn:E.
    + apply IH; tauto.
    + simpl. f_equal. apply IH; simpl; tauto.
Qed.

Lemma drop_duplicated_distinct tracks : forall seen,
  (forall k, In k (map dedup_key tracks) -> ~ In k seen) ->
  NoDup (map dedup_key tracks) ->
  drop_duplicated seen tracks = tracks.
Proof.
  induction tracks as [|r tracks IH]; intros seen Hs Hn; simpl; [reflexivity|].
  simpl in Hn. apply NoDup_cons_iff in Hn as [Hr Hn].
  destruct (existsb _ seen) eqn:E.
  - apply seen_key_iff in E. destruct (Hs (dedup_key r)); simpl; auto.
  - f_equal. apply IH; [|assumption].
    intros k Hk [<-|Hin]; [contradiction|].
    apply (Hs k); simpl; auto.
Qed.

Lemma drop_duplicated_keys tracks : forall seen k,
  In k (map dedup_key (drop_duplicated seen tracks))
  <-> In k (map dedup_key tracks) /\ ~ In k seen.
Proof.
  induction tracks as [|r tracks IH]; intros seen k; simpl; [tauto|].
  destruct (existsb _ seen) eqn:E.
  - apply seen_key_iff in E. rewrite IH. split; [tauto|].
    intros [[<-|H] Hn]; tauto.
  - assert (~ In (dedup_key r) seen) as Hr
      by (intros H; apply seen_key_iff in H; congruence).
    simpl. rewrite IH. simpl.
    destruct (dedup_key_eqb (dedup_key r) k) eqn:Ek.
    + apply dedup_key_eqb_eq in Ek. subst k. tauto.
    + assert (dedup_key r <> k) as Hne
        by (intros Heq; apply dedup_key_eqb_eq in Heq; congruence).
      tauto.
Qed.

Lemma drop_duplicated_NoDup tracks : forall seen,
  NoDup (map dedup_key (drop_duplicated seen tracks)).
Proof.
  induction tracks as [|r tracks IH]; intros seen; simpl; [constructor|].
  destruct (existsb _ seen); [apply IH|].
  simpl. constructor; [|apply IH].
  rewrite drop_duplicated_keys. simpl. tauto.
Qed.

(** C5.  The deduplication of [review_artist_discography] compares the
    three columns [(track_name, track_artist_ids, track_length)].  Reading
    the filtered tracks in order, a track is dropped when an earlier track
    has the same three values and kept, in place, otherwise; so every key
    of the input survives exactly once, through its first track, and
    tracks that pairwise differ in one of the three columns are all kept
    (a shared name alone merges nothing). *)
Theorem pending_review_keeps_first_of_each_key :
  (forall a b,
      dedup_key a = dedup_key b
      <-> TrackRow.track_name a = TrackRow.track_name b /\
          TrackRow.track_artist_ids a = TrackRow.track_artist_ids b /\
          TrackRow.track_length a = TrackRow.track_length b) /\
  (forall tracks t,
      In (dedup_key t) (map dedup_key tracks) ->
      pending_review (tracks ++ [t]) = pending_review tracks) /\
  (forall tracks t,
      ~ In (dedup_key t) (map dedup_key tracks) ->
      pending_review (tracks ++ [t]) = pending_review tracks ++ [t]) /\
  (forall tracks,
      NoDup (map dedup_key (pending_review tracks)) /\
      forall k, In k (map dedup_key (pending_review tracks))
                <-> In k (map dedup_key tracks)) /\
  (forall tracks,
      NoDup (map dedup_key tracks) -> pending_review tracks = tracks) /\
  (let row name artists seconds :=
     TrackRow.mk "al" name "t" "uri" artists "X" 1 1 true seconds in
   pending_review [row "Song A" "x" 180; row "Song A (Remaster)" "x" 180;
                   row "Song B" "x" 200; row "Song A" "x|y" 180;
                   row "Song A" "x" 181; row "Song A" "x" 180]
   = [row "Song A" "x" 180; row "Song A (Remaster)" "x" 180;
      row "Song B" "x" 200; row "Song A" "x|y" 180; row "Song A" "x" 181]) /\
  (forall server clock fuel artist_id path w pid reviewed tracks pending w',
      review_candidates server clock fuel artist_id path w
      = (Ret (pid, reviewed, tracks, pending), w') ->
      pending = pending_review tracks).
Proof.
  split; [|split; [|split; [|split; [|split; [|split]]]]].
  - intros a b. unfold dedup_key. split.
    + intros [= -> -> ->]. auto.
    + intros (Hn & Ha & Hl). congruence.
  - intros tracks t H. apply drop_duplicated_snoc_seen. auto.
  - intros tracks t H. now apply drop_duplicated_snoc_new.
  - intros tracks. split; [apply drop_duplicated_NoDup|].
    intros k. unfold pending_review. rewrite drop_duplicated_keys. simpl. tauto.
  - intros tracks H. apply drop_duplicated_distinct; [|assumption]. auto.
  - reflexivity.
  - intros server clock fuel artist_id path w pid reviewed tracks pending w' H.
    now apply review_candidates_inv in H as (? & ? & ? & ? & _ & _ & _ & _ & ->).
Qed.

(** ** The artist-relevance filter *)


(** ** Resolving the Pending Review playlist *)

Lemma filter_nothing {A} (p : A -> bool) (xs : list A) :
  (forall x, In x xs -> p x = false) -> filter p xs = [].
Proof.
  induction xs as [|x xs IH]; intros H; simpl; [reflexivity|].
  rewrite (H x) by (simpl; auto). apply IH. intros y Hy. apply H. simpl. auto.
Qed.



Section Resolve.

Variable server : list event -> request -> response.
Variable clock : list event -> Z.


End Resolve.


(** ** The access-token guard *)

Section Guard.

Variable server : list event -> request -> response.
Variable clock : list event -> Z.

(** With more than 600 seconds left the guard does nothing at all. *)
Lemma refresh_if_close_fresh w :
  600 < expiration_time (self w) - clock (trace w) ->
  refresh_if_close server clock w = (Ret tt, w).
Proof.
  intros H. unfold refresh_if_close, bind, get_self, time_time.
  destruct (_ <=? _) eqn:E; [|reflexivity].
  apply Z.leb_le in E. lia.
Qed.

(** With 600 seconds or less it sends one refresh request -- and leaves
    the client object as it was: the token and expiry that
    [get_access_token] returns are dropped. *)
Lemma refresh_if_close_stale w token :
  expiration_time (self w) - clock (trace w) <= 600 ->
  json (server (trace w)
          (PostRefreshToken (client_id (self w)) (client_secret (self w))
             (refresh_token (self w)))) = BAccessToken token ->
  refresh_if_close server clock w
  = (Ret tt,
     mkWorld (self w)
       (trace w ++ [Sent (PostRefreshToken (client_id (self w))
                            (client_secret (self w)) (refresh_token (self w)))])
       (stdin w) (files w)).
Proof.
  intros H Htok.
  unfold refresh_if_close, get_access_token, bind, get_self, time_time, send.
  apply Z.leb_le in H. rewrite H. simpl. now rewrite Htok.
Qed.

(** When the token endpoint works, the guard returns. *)
Lemma refresh_if_close_ok w :
  serves_tokens server ->
  exists w0, refresh_if_close server clock w = (Ret tt, w0) /\ step only_refresh w w0.
Proof.
  intros Htok.
  destruct (Z.le_gt_cases (expiration_time (self w) - clock (trace w)) 600) as [H|H].
  - destruct (Htok (trace w) (client_id (self w)) (client_secret (self w))
                (refresh_token (self w))) as [token Ht].
    rewrite (refresh_if_close_stale w token H Ht).
    eexists. split; [reflexivity|].
    repeat split. simpl. eexists. split; [reflexivity|].
    constructor; [reflexivity | constructor].
  - rewrite (refresh_if_close_fresh w H). eexists. split; [reflexivity|].
    apply step_refl.
Qed.

End Guard.

(** C1.  On a client whose token has 500 seconds left, with a service
    that answers the refresh with the token ["fresh"]:
    [get_user_id] does send one refresh before its request, but the
    request still carries the old token and the client object keeps the old
    token and the old expiry; [get_followed_artists], which repeats the
    test in its body, therefore refreshes twice; the constructor, in
    contrast, stores what [get_access_token] returns. *)
Theorem refresh_leaves_the_stored_token_stale :
  expiration_time stale_client - demo_clock [] = 500 /\
  get_access_token demo_server demo_clock stale_world
  = (Ret ("fresh", 4600),
     mkWorld stale_client [Sent (PostRefreshToken "id" "secret" "refresh")] []
       demo_files) /\
  get_user_id demo_server demo_clock stale_world
  = (Ret "me",
     mkWorld stale_client
       [Sent (PostRefreshToken "id" "secret" "refresh"); Sent (GetMe "token")] []
       demo_files) /\
  refreshes (trace (snd (get_followed_artists demo_server demo_clock 3 stale_world)))
  = 2%nat /\
  self (snd (init demo_server demo_clock "id" "secret" "http://localhost"
               "user-follow-modify" (Some "refresh") stale_world))
  = mkClient "id" "secret" "http://localhost" "user-follow-modify" "refresh"
      "fresh" 4600 "me".
Proof.
  repeat split.
Qed.

(** ** Pagination *)

Section Pagination.

Variable server : list event -> request -> response.
Variable clock : list event -> Z.

Lemma offset_loop_step {R} (request : Z -> request)
    (page : body -> option (list R * Z)) fuel rows offset w data total :
  page (json (server (trace w) (request offset))) = Some (data, total) ->
  offset_loop server request page (S fuel) rows offset w
  = if Z.of_nat (length (rows ++ data)) =? total
    then (Ret (rows ++ data), sent w (request offset))
    else offset_loop server request page fuel (rows ++ data) (offset + 50)
           (sent w (request offset)).
Proof.
  intros H. cbn [offset_loop]. unfold bind at 1. unfold send. rewrite H.
  now destruct (_ =? _).
Qed.

Lemma followed_artists_loop_step token fuel artists after w items total :
  json (server (trace w) (GetFollowing token after)) = BArtists items total ->
  followed_artists_loop server token (S fuel) artists after w
  = if Z.of_nat (length (artists ++ map artist_row items)) =? total
    then (Ret (artists ++ map artist_row items), sent w (GetFollowing token after))
    else match rev items with
         | [] => (Raise IndexError, sent w (GetFollowing token after))
         | last :: _ =>
             followed_artists_loop server token fuel
               (artists ++ map artist_row items) (Some (JArtist.id last))
               (sent w (GetFollowing token after))
         end.
Proof.
  intros H. cbn [followed_artists_loop]. unfold bind at 1. unfold send. rewrite H.
  destruct (_ =? _); [reflexivity|].
  rewrite <- map_rev. now destruct (rev items).
Qed.

Lemma offset_loop_stuck {R} (request : Z -> request)
    (page : body -> option (list R * Z)) total :
  total <> 0 ->
  (forall history offset,
      page (json (server history (request offset))) = Some ([], total)) ->
  forall fuel offset w,
    fst (offset_loop server request page fuel [] offset w) = Timeout.
Proof.
  intros Ht Hs. induction fuel as [|fuel IH]; intros offset w; [reflexivity|].
  rewrite (offset_loop_step _ _ _ _ _ _ _ _ (Hs (trace w) offset)).
  cbn [app length Z.of_nat].
  destruct (0 =? total) eqn:E; [apply Z.eqb_eq in E; congruence | apply IH].
Qed.

(** C2, as the loops are written.  One iteration of a pagination loop
    sends the page request, appends the page to the rows gathered so far
    and returns them when their count equals the [total] of this answer.
    When the count differs, the offset-style loops go on with the offset
    raised by 50, also after a page without items, and raise nothing; the
    cursor-style loop goes on from the id of the page's last item and
    raises [IndexError] when the page has no item.  So an offset-style
    loop never returns on an endpoint that keeps answering with an empty
    page and a total other than 0. *)
Theorem pagination_stops_only_when_count_equals_total :
  (forall R (request : Z -> request) (page : body -> option (list R * Z))
          fuel rows offset w data total,
      page (json (server (trace w) (request offset))) = Some (data, total) ->
      (Z.of_nat (length (rows ++ data)) = total ->
       offset_loop server request page (S fuel) rows offset w
       = (Ret (rows ++ data), sent w (request offset))) /\
      (Z.of_nat (length (rows ++ data)) <> total ->
       offset_loop server request page (S fuel) rows offset w
       = offset_loop server request page fuel (rows ++ data) (offset + 50)
           (sent w (request offset)))) /\
  (forall token fuel artists after w items total,
      json (server (trace w) (GetFollowing token after)) = BArtists items total ->
      let artists' := artists ++ map artist_row items in
      let w1 := sent w (GetFollowing token after) in
      (Z.of_nat (length artists') = total ->
       followed_artists_loop server token (S fuel) artists after w
       = (Ret artists', w1)) /\
      (Z.of_nat (length artists') <> total -> items = [] ->
       followed_artists_loop server token (S fuel) artists after w
       = (Raise IndexError, w1)) /\
      (Z.of_nat (length artists') <> total ->
       forall earlier last, items = earlier ++ [last] ->
       followed_artists_loop server token (S fuel) artists after w
       = followed_artists_loop server token fuel artists'
           (Some (JArtist.id last)) w1)) /\
  (forall R (request : Z -> request) (page : body -> option (list R * Z)) total,
      total <> 0 ->
      (forall history offset,
          page (json (server history (request offset))) = Some ([], total)) ->
      forall fuel offset w,
        fst (offset_loop server request page fuel [] offset w) = Timeout).
Proof.
  split; [|split].
  - intros R request page fuel rows offset w data total H.
    rewrite (offset_loop_step _ _ fuel rows _ _ _ _ H).
    split; intros E.
    + apply Z.eqb_eq in E. now rewrite E.
    + apply Z.eqb_neq in E. now rewrite E.
  - intros token fuel artists after w items total H artists' w1.
    rewrite (followed_artists_loop_step _ fuel artists _ _ _ _ H).
    fold artists' w1. repeat split.
    + intros E. apply Z.eqb_eq in E. now rewrite E.
    + intros E ->. apply Z.eqb_neq in E. now rewrite E.
    + intros E earlier last ->. apply Z.eqb_neq in E. rewrite E.
      now rewrite rev_app_distr.
  - apply @offset_loop_stuck.
Qed.

End Pagination.

(** C2, counterexample.  [get_current_user_playlists] against the stuck
    listing neither returns nor raises, however many iterations its loop
    is allowed. *)
Lemma stuck_playlists_listing_never_returns :
  diverges (get_current_user_playlists stuck_server demo_clock) (demo_world "Y").
Proof.
  intros fuel.
  unfold get_current_user_playlists, check_access_token.
  rewrite (bind_eq _ _ _ _ _
             (refresh_if_close_fresh stuck_server demo_clock (demo_world "Y")
                eq_refl)).
  unfold bind at 1. simpl.
  apply (offset_loop_stuck stuck_server _ playlists_page 1);
    [discriminate | reflexivity].
Qed.

(** ** Consistent resources *)

Lemma ceil_div_50 N :
  (50 * ceil_div N 50 < N + 50 /\ N <= 50 * ceil_div N 50)%nat.
Proof.
  unfold ceil_div.
  pose proof (Nat.div_mod_eq (N + 50 - 1) 50).
  pose proof (Nat.mod_upper_bound (N + 50 - 1) 50).
  lia.
Qed.

Lemma firstn_plus {A} (xs : list A) : forall n m,
  firstn n xs ++ firstn m (skipn n xs) = firstn (n + m) xs.
Proof.
  induction xs as [|x xs IH]; intros [|n] m; simpl;
    rewrite ?firstn_nil; try reflexivity.
  now rewrite IH.
Qed.

Lemma slice_page {A} (xs : list A) k :
  slice xs (50 * k) (50 * (k + 1)) = firstn 50 (skipn (50 * k) xs).
Proof. unfold slice. f_equal. lia. Qed.

Lemma page_requests_sent w r :
  page_requests (trace (sent w r))
  = (page_requests (trace w) + if is_page_request r then 1 else 0)%nat.
Proof.
  unfold page_requests, requests, sent. simpl.
  rewrite flat_map_app, filter_app, length_app. simpl.
  now destruct (is_page_request r).
Qed.

Lemma step_page_requests w w' :
  step only_refresh w w' -> page_requests (trace w') = page_requests (trace w).
Proof.
  intros H. unfold page_requests. f_equal.
  apply (step_requests _ _ _ _ H). now intros [].
Qed.

Lemma drop_through_NoDup before a rest :
  NoDup (map JArtist.id (before ++ a :: rest)) ->
  drop_through (JArtist.id a) (before ++ a :: rest) = rest.
Proof.
  induction before as [|b before IH]; simpl; intros H.
  - now rewrite String.eqb_refl.
  - apply NoDup_cons_iff in H as [Hb H].
    destruct (String.eqb_spec (JArtist.id a) (JArtist.id b)) as [E|_].
    + destruct Hb. rewrite <- E, map_app. apply in_or_app. right. simpl. auto.
    + now apply IH.
Qed.

Section Consistent.

Variable server : list event -> request -> response.
Variable clock : list event -> Z.

(** From the state the loop is in after [k] full pages, [m] more
    iterations return the whole resource. *)
Lemma offset_loop_consistent {R} (request : Z -> request)
    (page : body -> option (list R * Z)) (all : list R) :
  serves_offset server request page all ->
  (forall offset, is_page_request (request offset) = true) ->
  forall m k fuel w,
    (1 <= m)%nat -> (m <= fuel)%nat -> (k + m = ceil_div (length all) 50)%nat ->
    exists w',
      offset_loop server request page fuel (firstn (50 * k) all)
        (50 * Z.of_nat k) w = (Ret all, w') /\
      page_requests (trace w') = (page_requests (trace w) + m)%nat.
Proof.
  intros Hs Hp. pose proof (ceil_div_50 (length all)) as [Hlo Hhi].
  induction m as [|m IH]; intros k fuel w Hm Hf Hk; [lia|].
  destruct fuel as [|fuel]; [lia|].
  rewrite (offset_loop_step _ _ _ _ _ _ _ _ _ (Hs (trace w) k)).
  rewrite slice_page, firstn_plus, length_firstn.
  destruct (Nat.eq_dec m 0) as [->|Hm0].
  - assert (length all <= 50 * k + 50)%nat as Hall by lia.
    rewrite Nat.min_r by exact Hall. rewrite Z.eqb_refl.
    rewrite firstn_all2 by exact Hall.
    eexists. split; [reflexivity|].
    now rewrite page_requests_sent, Hp.
  - assert (50 * k + 50 < length all)%nat as Hall by lia.
    rewrite Nat.min_l by lia.
    destruct (Z.eqb_spec (Z.of_nat (50 * k + 50)) (Z.of_nat (length all)))
      as [E|_]; [lia|].
    replace (50 * Z.of_nat k + 50) with (50 * Z.of_nat (k + 1)) by lia.
    replace (50 * k + 50)%nat with (50 * (k + 1))%nat by lia.
    destruct (IH (k + 1)%nat fuel (sent w (request (50 * Z.of_nat k))))
      as (w' & Hrun & Hcount); try lia.
    exists w'. split; [exact Hrun|].
    rewrite Hcount, page_requests_sent, Hp. lia.
Qed.

Lemma followed_artists_loop_consistent (all : list JArtist.t) token :
  serves_cursor server all ->
  NoDup (map JArtist.id all) ->
  forall m k after fuel w,
    (1 <= m)%nat -> (m <= fuel)%nat -> (k + m = ceil_div (length all) 50)%nat ->
    after_cursor after all = skipn (50 * k) all ->
    exists w',
      followed_artists_loop server token fuel
        (map artist_row (firstn (50 * k) all)) after w
      = (Ret (map artist_row all), w') /\
      page_requests (trace w') = (page_requests (trace w) + m)%nat.
Proof.
  intros Hs Hnd. pose proof (ceil_div_50 (length all)) as [Hlo Hhi].
  induction m as [|m IH]; intros k after fuel w Hm Hf Hk Hafter; [lia|].
  destruct fuel as [|fuel]; [lia|].
  rewrite (followed_artists_loop_step _ _ _ _ _ _ _ _ (Hs (trace w) token after)).
  rewrite Hafter, <- map_app, firstn_plus, length_map, length_firstn.
  destruct (Nat.eq_dec m 0) as [->|Hm0].
  - assert (length all <= 50 * k + 50)%nat as Hall by lia.
    rewrite Nat.min_r by exact Hall. rewrite Z.eqb_refl.
    rewrite firstn_all2 by exact Hall.
    eexists. split; [reflexivity|].
    now rewrite page_requests_sent.
  - assert (50 * k + 50 < length all)%nat as Hall by lia.
    rewrite Nat.min_l by lia.
    destruct (Z.eqb_spec (Z.of_nat (50 * k + 50)) (Z.of_nat (length all)))
      as [E|_]; [lia|].
    set (items := firstn 50 (skipn (50 * k) all)).
    assert (length items = 50%nat) as Hitems
      by (unfold items; rewrite length_firstn, length_skipn; lia).
    destruct (exists_last (l := items)) as (earlier & last & Hlast);
      [intros E; rewrite E in Hitems; discriminate|].
    rewrite Hlast, rev_app_distr. cbn [rev app].
    replace (50 * k + 50)%nat with (50 * (k + 1))%nat by lia.
    destruct (IH (k + 1)%nat (Some (JArtist.id last)) fuel
                (sent w (GetFollowing token after)))
      as (w' & Hrun & Hcount); try lia.
    + cbn [after_cursor].
      assert (all = (firstn (50 * k) all ++ earlier)
                    ++ last :: skipn (50 * (k + 1)) all) as Hsplit.
      { rewrite <- app_assoc.
        replace (earlier ++ last :: skipn (50 * (k + 1)) all)
          with (items ++ skipn (50 * (k + 1)) all)
          by (rewrite Hlast, <- app_assoc; reflexivity).
        replace (50 * (k + 1))%nat with (50 + 50 * k)%nat by lia.
        rewrite <- skipn_skipn. unfold items.
        now rewrite (firstn_skipn 50), firstn_skipn. }
      rewrite Hsplit at 1. apply drop_through_NoDup. now rewrite <- Hsplit.
    + exists w'. split; [exact Hrun|].
      rewrite Hcount, page_requests_sent. cbn [is_page_request kind_of]. lia.
Qed.

(** A wrapped offset-paginated method lists a consistent resource. *)
Lemma offset_method_paginates {R} (request : string -> Z -> request)
    (page : body -> option (list R * Z)) (all : list R) w :
  serves_tokens server ->
  all <> [] ->
  (forall token, serves_offset server (request token) page all) ->
  (forall token offset, is_page_request (request token offset) = true) ->
  paginates
    (fun fuel =>
       check_access_token server clock (
         c <- get_self ;;
         offset_loop server (request (access_token c)) page fuel [] 0))
    all w.
Proof.
  intros Htok Hne Hs Hp fuel Hfuel.
  destruct (refresh_if_close_ok server clock w Htok) as (w0 & H0 & S0).
  unfold check_access_token. rewrite (bind_eq _ _ _ _ _ H0).
  unfold bind at 1. simpl.
  assert (1 <= ceil_div (length all) 50)%nat as Hpages.
  { pose proof (ceil_div_50 (length all)). destruct all; [congruence|]. simpl in *. lia. }
  destruct (offset_loop_consistent _ _ _ (Hs (access_token (self w0)))
              (Hp (access_token (self w0)))
              (ceil_div (length all) 50) 0%nat fuel w0 Hpages Hfuel eq_refl)
    as (w' & Hrun & Hcount).
  exists w'. split; [exact Hrun|].
  now rewrite Hcount, (step_page_requests _ _ S0).
Qed.

Lemma serves_pages_offset {J R} (request : Z -> request)
    (mk : list J -> Z -> body) (page : body -> option (list R * Z))
    (flatten : J -> R) (all : list J) :
  (forall items total, page (mk items total) = Some (map flatten items, total)) ->
  serves_pages server request mk all ->
  serves_offset server request page (map flatten all).
Proof.
  intros Hpage Hs history k. rewrite Hs, Hpage. unfold slice.
  now rewrite skipn_map, firstn_map, length_map.
Qed.

(** C8.  Against a service whose token endpoint works, every paginated
    operation lists a consistently served, non-empty resource in full.
    The resource is a list [all] of JSON objects; each page answer carries
    the next objects, at most 50, and [total = len(all)].  The operation
    then returns one row per object, in order -- as many rows as the [total]
    every page reports -- and has sent [ceil(total / 50)] page requests, 50
    being the page size the client asks for.  (The followed artists are
    told apart by their ids, which the cursor relies on.) *)
Theorem consistent_resources_are_listed_in_ceil_pages w :
  serves_tokens server ->
  (forall all,
      all <> [] -> NoDup (map JArtist.id all) -> serves_cursor server all ->
      paginates (get_followed_artists server clock) (map artist_row all) w) /\
  (forall all,
      all <> [] ->
      (forall token, serves_pages server (GetMyPlaylists token) BPlaylists all) ->
      paginates (get_current_user_playlists server clock) (map playlist_row all) w) /\
  (forall playlist_id all,
      all <> [] ->
      (forall token,
          serves_pages server (GetPlaylistTracks token playlist_id) BPlaylistItems all) ->
      paginates (fun fuel => get_playlist_items server clock fuel playlist_id)
        (map (item_row playlist_id) all) w) /\
  (forall artist_id all,
      all <> [] ->
      (forall token,
          serves_pages server (GetArtistAlbums token artist_id) BAlbums all) ->
      paginates (fun fuel => get_artists_albums server clock fuel artist_id)
        (map (album_row artist_id) all) w) /\
  (forall album_id all,
      all <> [] ->
      (forall token,
          serves_pages server (GetAlbumTracks token album_id) BTracks all) ->
      paginates (fun fuel => get_albums_tracks server clock fuel album_id)
        (map (track_row album_id) all) w).
Proof.
  intros Htok.
  assert (forall J R (flatten : J -> R) (all : list J),
             all <> [] -> map flatten all <> []) as Hmap
    by (intros J R flatten [|x all] H; [contradiction | discriminate]).
  split; [|split; [|split; [|split]]].
  - intros all Hne Hnd Hs fuel Hfuel. rewrite length_map in Hfuel.
    destruct (refresh_if_close_ok server clock w Htok) as (w0 & H0 & S0).
    destruct (refresh_if_close_ok server clock w0 Htok) as (w1 & H1 & S1).
    unfold get_followed_artists, check_access_token.
    rewrite (bind_eq _ _ _ _ _ H0), (bind_eq _ _ _ _ _ H1).
    unfold bind at 1. simpl.
    assert (1 <= ceil_div (length all) 50)%nat as Hpages.
    { pose proof (ceil_div_50 (length all)). destruct all; [congruence|].
      simpl in *. lia. }
    destruct (followed_artists_loop_consistent all (access_token (self w1)) Hs Hnd
                (ceil_div (length all) 50) 0%nat None fuel w1 Hpages Hfuel eq_refl
                eq_refl)
      as (w' & Hrun & Hcount).
    exists w'. split; [exact Hrun|].
    rewrite Hcount, (step_page_requests _ _ S1), (step_page_requests _ _ S0).
    now rewrite length_map.
  - intros all Hne Hs.
    apply (offset_method_paginates GetMyPlaylists); auto.
    intros token. now apply (serves_pages_offset _ BPlaylists).
  - intros playlist_id all Hne Hs.
    apply (offset_method_paginates
             (fun token => GetPlaylistTracks token playlist_id)); auto.
    intros token. now apply (serves_pages_offset _ BPlaylistItems).
  - intros artist_id all Hne Hs.
    apply (offset_method_paginates
             (fun token => GetArtistAlbums token artist_id)); auto.
    intros token. now apply (serves_pages_offset _ BAlbums).
  - intros album_id all Hne Hs.
    apply (offset_method_paginates
             (fun token => GetAlbumTracks token album_id)); auto.
    intros token. now apply (serves_pages_offset _ BTracks).
Qed.

End Consistent.

Lemma distinctb_NoDup xs : distinctb xs = true -> NoDup xs.
Proof.
  induction xs as [|x xs IH]; simpl; intros H; constructor;
    apply andb_true_iff in H as [Hx Hxs].
  - intros Hin. apply isin_iff in Hin. rewrite Hin in Hx. discriminate.
  - now apply IH.
Qed.

Lemma library_server_tokens : serves_tokens library_server.
Proof. intros history id secret refresh. now exists "fresh". Qed.

Lemma library_server_artists : serves_cursor library_server paged_artists.
Proof. intros history token after. reflexivity. Qed.

Lemma library_server_pages :
  (forall token, serves_pages library_server (GetMyPlaylists token) BPlaylists
                   paged_playlists) /\
  (forall token, serves_pages library_server (GetPlaylistTracks token "P2")
                   BPlaylistItems paged_items) /\
  (forall token, serves_pages library_server (GetArtistAlbums token "A") BAlbums
                   paged_albums) /\
  (forall token, serves_pages library_server (GetAlbumTracks token "z") BTracks
                   paged_tracks).
Proof.
  repeat split; intros token history k;
    cbn [library_server paged_server json]; rewrite slice_page;
    now replace (Z.to_nat (50 * Z.of_nat k)) with (50 * k)%nat by lia.
Qed.

Lemma paged_resources_witness :
  (exists w',
      get_followed_artists library_server demo_clock 3 (demo_world "Y")
      = (Ret (map artist_row paged_artists), w') /\
      page_requests (trace w') = 3%nat) /\
  (exists w',
      get_current_user_playlists library_server demo_clock 3 (demo_world "Y")
      = (Ret (map playlist_row paged_playlists), w') /\
      page_requests (trace w') = 3%nat) /\
  (exists w',
      get_playlist_items library_server demo_clock 3 "P2" (demo_world "Y")
      = (Ret (map (item_row "P2") paged_items), w') /\
      page_requests (trace w') = 3%nat) /\
  (exists w',
      get_artists_albums library_server demo_clock 3 "A" (demo_world "Y")
      = (Ret (map (album_row "A") paged_albums), w') /\
      page_requests (trace w') = 3%nat) /\
  (exists w',
      get_albums_tracks library_server demo_clock 3 "z" (demo_world "Y")
      = (Ret (map (track_row "z") paged_tracks), w') /\
      page_requests (trace w') = 3%nat).
Proof.
  pose proof (consistent_resources_are_listed_in_ceil_pages library_server
                demo_clock (demo_world "Y") library_server_tokens)
    as (Hartists & Hplaylists & Hitems & Halbums & Htracks).
  destruct library_server_pages as (Sp & Si & Sa & St).
  split; [|split; [|split; [|split]]].
  - apply (Hartists paged_artists);
      [discriminate | apply distinctb_NoDup; vm_compute; reflexivity
      | apply library_server_artists | vm_compute; lia].
  - apply (Hplaylists paged_playlists);
      [discriminate | exact Sp | vm_compute; lia].
  - apply (Hitems "P2" paged_items);
      [discriminate | exact Si | vm_compute; lia].
  - apply (Halbums "A" paged_albums);
      [discriminate | exact Sa | vm_compute; lia].
  - apply (Htracks "z" paged_tracks);
      [discriminate | exact St | vm_compute; lia].
Defined.

(** * Further properties of the client *)

(** ** The constructor *)

Section Constructor.

Variable server : list event -> request -> response.
Variable clock : list event -> Z.

(** The constructor, given a refresh token: when the token endpoint
    answers with an access token and [/me] with a user id, it sends exactly
    these two requests, the second already carrying the new token, and
    stores the token, the expiry one hour after the clock's reading and the
    user id.  The guard of [get_user_id] finds 3600 seconds left and does
    not refresh again. *)
Theorem init_stores_what_the_service_returns
    id secret uri scope refresh w token user :
  json (server (trace w) (PostRefreshToken id secret refresh)) = BAccessToken token ->
  json (server (trace w ++ [Sent (PostRefreshToken id secret refresh)]) (GetMe token))
  = BUser user ->
  init server clock id secret uri scope (Some refresh) w
  = (Ret tt,
     mkWorld
       (mkClient id secret uri scope refresh token
          (clock (trace w ++ [Sent (PostRefreshToken id secret refresh)]) + 3600)
          user)
       (trace w ++ [Sent (PostRefreshToken id secret refresh); Sent (GetMe token)])
       (stdin w) (files w)).
Proof.
  intros Htoken Huser.
  unfold init, get_access_token, get_user_id, check_access_token,
    refresh_if_close, bind, set_self, get_self, ret, send, time_time.
  cbn [self trace stdin files client_id client_secret refresh_token
       expiration_time access_token fst snd].
  rewrite Htoken.
  cbn [self trace stdin files client_id client_secret refresh_token
       expiration_time access_token fst snd].
  set (now := clock (trace w ++ [Sent (PostRefreshToken id secret refresh)])).
  destruct (Z.leb_spec (now + 3600 - now) 600) as [H|_]; [lia|].
  cbn [self trace stdin files access_token].
  rewrite Huser. now rewrite <- app_assoc.
Qed.

(** The constructor, given no refresh token: it reads the authorization
    code from standard input, exchanges it for a refresh token and goes on
    with that token exactly as if it had been supplied. *)
Theorem init_exchanges_the_code_it_reads
    id secret uri scope w code rest refresh :
  stdin w = code :: rest ->
  json (server (trace w) (PostAuthorizationCode id secret code uri))
  = BRefreshToken refresh ->
  init server clock id secret uri scope None w
  = init server clock id secret uri scope (Some refresh)
      (mkWorld (self w)
         (trace w ++ [Sent (PostAuthorizationCode id secret code uri)])
         rest (files w)).
Proof.
  intros Hin Hrefresh.
  unfold init at 1.
  unfold get_refresh_token, bind, set_self, get_self, input, send, ret.
  cbn [self trace stdin files client_id client_secret redirect_uri].
  rewrite Hin.
  cbn [self trace stdin files client_id client_secret redirect_uri].
  rewrite Hrefresh. reflexivity.
Qed.

End Constructor.

Lemma init_stores_witness :
  init demo_server demo_clock "id" "secret" "http://localhost" "user-follow-modify"
    (Some "refresh") (demo_world "Y")
  = (Ret tt,
     mkWorld
       (mkClient "id" "secret" "http://localhost" "user-follow-modify" "refresh"
          "fresh"
          (demo_clock (trace (demo_world "Y")
                       ++ [Sent (PostRefreshToken "id" "secret" "refresh")]) + 3600)
          "me")
       (trace (demo_world "Y")
        ++ [Sent (PostRefreshToken "id" "secret" "refresh"); Sent (GetMe "fresh")])
       (stdin (demo_world "Y")) (files (demo_world "Y"))).
Proof.
  apply (init_stores_what_the_service_returns demo_server demo_clock "id" "secret"
           "http://localhost" "user-follow-modify" "refresh" (demo_world "Y")
           "fresh" "me"); reflexivity.
Defined.

Lemma init_exchanges_witness :
  init auth_server demo_clock "id" "secret" "http://localhost" "user-follow-modify"
    None (demo_world "code")
  = init auth_server demo_clock "id" "secret" "http://localhost" "user-follow-modify"
      (Some "refresh")
      (mkWorld (self (demo_world "code"))
         (trace (demo_world "code")
          ++ [Sent (PostAuthorizationCode "id" "secret" "code" "http://localhost")])
         [] (files (demo_world "code"))).
Proof.
  apply (init_exchanges_the_code_it_reads auth_server demo_clock "id" "secret"
           "http://localhost" "user-follow-modify" (demo_world "code") "code" []
           "refresh"); reflexivity.
Defined.

(** ** The guard, for any service *)

Section GuardAnyService.

Variable server : list event -> request -> response.
Variable clock : list event -> Z.

(** The test [expiration_time - time.time() <= 600] alone decides whether
    a refresh request is sent: one when it holds, 600 included, none
    otherwise; whatever the token endpoint answers, no other request is
    sent and the client object, standard input and the files stay as they
    are. *)
Theorem guard_refreshes_exactly_when_close w :
  let w' := snd (refresh_if_close server clock w) in
  trace w'
  = trace w
    ++ (if expiration_time (self w) - clock (trace w) <=? 600
        then [Sent (PostRefreshToken (client_id (self w)) (client_secret (self w))
                      (refresh_token (self w)))]
        else []) /\
  self w' = self w /\ stdin w' = stdin w /\ files w' = files w.
Proof.
  unfold refresh_if_close, get_access_token, bind, get_self, time_time, send, ret,
    raise.
  cbn [self trace stdin files fst snd].
  destruct (_ <=? _); cbn [fst snd trace self stdin files].
  - destruct (json _); cbn [fst snd trace self stdin files]; auto.
  - rewrite app_nil_r. auto.
Qed.

End GuardAnyService.

(** ** Operations that only read *)

Section ReadOnly.

Variable server : list event -> request -> response.
Variable clock : list event -> Z.

Lemma emits_followed_artists_loop allowed token fuel :
  allowed KFollowing = true ->
  forall artists after,
    emits allowed (followed_artists_loop server token fuel artists after).
Proof.
  intros Hk. induction fuel as [|fuel IH]; intros artists after; simpl.
  - apply emits_timeout.
  - apply emits_bind; [now apply emits_send|]. intros response.
    destruct (json response); try apply emits_raise.
    destruct (_ =? _); [apply emits_ret|].
    destruct (rev _); [apply emits_raise | apply IH].
Qed.

Lemma step_read_only {A} (m : M A) :
  emits no_mutation m -> read_only m.
Proof.
  intros H w. specialize (H w). cbv zeta.
  destruct H as (Hs & Hi & Hf & Hnew). repeat split; try assumption.
  - unfold mutations. apply (step_requests no_mutation).
    + repeat split; assumption.
    + intros r Hr. unfold no_mutation in Hr. now destruct (mutating (kind_of r)).
  - apply (step_csv_writes no_mutation). repeat split; assumption.
Qed.

(** The seven reading operations leave the client object, standard input
    and the files alone, send no follow, create or add request and write
    no CSV -- for every service and clock, whether they return, raise or
    run out of iterations. *)
Theorem reading_operations_change_nothing fuel :
  read_only (get_user_id server clock) /\
  read_only (get_followed_artists server clock fuel) /\
  read_only (get_current_user_playlists server clock fuel) /\
  (forall playlist_id, read_only (get_playlist_items server clock fuel playlist_id)) /\
  (forall artist_id, read_only (get_artists_albums server clock fuel artist_id)) /\
  (forall album_id, read_only (get_albums_tracks server clock fuel album_id)) /\
  (forall album_ids,
      read_only (get_several_albums_tracks server clock fuel album_ids)).
Proof.
  split; [|split; [|split; [|split; [|split; [|split]]]]];
    intros; apply step_read_only.
  - apply emits_check_access_token; [reflexivity|].
    apply emits_bind; [apply emits_get_self|]. intros c.
    apply emits_bind; [now apply emits_send|]. intros r.
    destruct (json r); auto with emits.
  - apply emits_check_access_token; [reflexivity|].
    apply emits_bind; [now apply emits_refresh_if_close|]. intros _.
    apply emits_bind; [apply emits_get_self|]. intros c.
    now apply emits_followed_artists_loop.
  - now apply emits_get_current_user_playlists.
  - apply emits_check_access_token; [reflexivity|].
    apply emits_bind; [apply emits_get_self|]. intros c.
    now apply emits_offset_loop.
  - now apply emits_get_artists_albums.
  - now apply emits_get_albums_tracks.
  - now apply emits_get_several_albums_tracks.
Qed.

End ReadOnly.

(** ** The mutating operations *)

Section Mutating.

Variable server : list event -> request -> response.
Variable clock : list event -> Z.

(** [add_items_to_playlist] sends one POST with the playlist id and the
    URIs it was given and returns normally whatever the status of the
    answer: a refused upload is not raised to the caller. *)
Theorem add_items_returns_whatever_the_status playlist_id track_uris w w0 :
  refresh_if_close server clock w = (Ret tt, w0) ->
  add_items_to_playlist server clock playlist_id track_uris w
  = (Ret tt, sent w0 (PostPlaylistTracks (access_token (self w)) playlist_id track_uris)).
Proof.
  intros H0. pose proof (refresh_if_close_inv _ _ _ _ H0) as (Hs & _).
  unfold add_items_to_playlist, check_access_token.
  rewrite (bind_eq _ _ _ _ _ H0).
  unfold bind, get_self, send, ret, sent. cbn [self trace stdin files].
  now rewrite Hs.
Qed.

(** [follow_artist] sends one PUT for the artist.  It returns normally on
    status 204 and also on any other status whose body carries an error
    message: the refusal is not raised.  Only a refusal without an error
    message raises ([KeyError]). *)
Theorem follow_artist_raises_only_without_error_message artist_id w w0 :
  refresh_if_close server clock w = (Ret tt, w0) ->
  let put := PutFollowing (access_token (self w)) artist_id in
  let response := server (trace w0) put in
  (status_code response = 204 ->
   follow_artist server clock artist_id w = (Ret tt, sent w0 put)) /\
  (forall message,
      json response = BError message ->
      follow_artist server clock artist_id w = (Ret tt, sent w0 put)) /\
  (status_code response <> 204 ->
   (forall message, json response <> BError message) ->
   follow_artist server clock artist_id w = (Raise KeyError, sent w0 put)).
Proof.
  intros H0 put response.
  pose proof (refresh_if_close_inv _ _ _ _ H0) as (Hs & _).
  assert (follow_artist server clock artist_id w
          = (if status_code response =? 204 then Ret tt
             else match json response with
                  | BError _ => Ret tt
                  | _ => Raise KeyError
                  end, sent w0 put)) as ->.
  { unfold follow_artist, check_access_token.
    rewrite (bind_eq _ _ _ _ _ H0).
    unfold bind, get_self, send, ret, raise, sent. cbn [self trace stdin files].
    rewrite Hs. fold put. fold response.
    destruct (_ =? _); [reflexivity|]. now destruct (json response). }
  repeat split.
  - intros E. apply Z.eqb_eq in E. now rewrite E.
  - intros message E. rewrite E. now destruct (_ =? _).
  - intros E Hn. apply Z.eqb_neq in E. rewrite E.
    destruct (json response); try reflexivity. now destruct (Hn message).
Qed.

(** [create_playlist] lists the user's playlists first.  With an empty
    listing it raises [KeyError] (the frame has no [playlist_name] column)
    and creates nothing; when a playlist of that name exists it returns
    without sending anything more; otherwise it sends one creation request
    with the user id, the name and the description, and returns normally
    whatever the status of the answer. *)
Theorem create_playlist_checks_the_name_first
    fuel playlist_name playlist_description w w0 playlists w1 :
  refresh_if_close server clock w = (Ret tt, w0) ->
  get_current_user_playlists server clock fuel w0 = (Ret playlists, w1) ->
  let names := map PlaylistRow.playlist_name playlists in
  let create := create_playlist server clock fuel playlist_name playlist_description in
  (playlists = [] -> create w = (Raise KeyError, w1)) /\
  (In playlist_name names -> create w = (Ret tt, w1)) /\
  (playlists <> [] -> ~ In playlist_name names ->
   create w
   = (Ret tt,
      sent w1 (PostPlaylist (access_token (self w)) (user_id (self w)) playlist_name
                 playlist_description))).
Proof.
  intros H0 H1 names create.
  pose proof (refresh_if_close_inv _ _ _ _ H0) as (Hs0 & _).
  pose proof (emits_run only_reads _ _ _ _
                (emits_get_current_user_playlists server clock _ eq_refl fuel eq_refl)
                H1) as (Hs1 & _).
  unfold create, create_playlist, check_access_token.
  rewrite (bind_eq _ _ _ _ _ H0), (bind_eq _ _ _ _ _ H1). fold names.
  repeat split.
  - now intros ->.
  - intros Hin. apply isin_iff in Hin. rewrite Hin. now destruct playlists.
  - intros Hne Hnot.
    destruct (isin playlist_name names) eqn:E;
      [apply isin_iff in E; contradiction|].
    destruct playlists; [contradiction|].
    unfold bind, get_self, send, ret, sent. cbn [self trace stdin files].
    now rewrite Hs1, Hs0.
Qed.

End Mutating.

Lemma add_items_witness :
  add_items_to_playlist demo_server demo_clock "P2" ["uri1"; "uri2"] (demo_world "Y")
  = (Ret tt,
     sent (demo_world "Y")
       (PostPlaylistTracks (access_token (self (demo_world "Y"))) "P2"
          ["uri1"; "uri2"])).
Proof.
  apply (add_items_returns_whatever_the_status demo_server demo_clock "P2"
           ["uri1"; "uri2"] (demo_world "Y") (demo_world "Y")).
  reflexivity.
Defined.

Lemma follow_artist_witness :
  follow_artist demo_server demo_clock "A" (demo_world "Y")
  = (Ret tt,
     sent (demo_world "Y") (PutFollowing (access_token (self (demo_world "Y"))) "A")).
Proof.
  apply (follow_artist_raises_only_without_error_message demo_server demo_clock "A"
           (demo_world "Y") (demo_world "Y")); reflexivity.
Defined.

Lemma create_playlist_witness :
  create_playlist demo_server demo_clock 5 "Pending Review" "to review"
    (demo_world "Y")
  = (Ret tt,
     snd (get_current_user_playlists demo_server demo_clock 5 (demo_world "Y"))).
Proof.
  apply (create_playlist_checks_the_name_first demo_server demo_clock 5
           "Pending Review" "to review" (demo_world "Y") (demo_world "Y")
           [PlaylistRow.mk "P1" "Liked"; PlaylistRow.mk "P2" "Pending Review"]);
    [reflexivity | reflexivity | simpl; auto].
Defined.

(** ** Batched album answers *)

Lemma collect_ret {A B} (xs : list A) (f : A -> M B) (g : A -> B) w :
  (forall x, In x xs -> f x = ret (g x)) ->
  collect xs f w = (Ret (map g xs), w).
Proof.
  induction xs as [|x xs IH]; intros H; simpl; [reflexivity|].
  rewrite (H x) by (simpl; auto). unfold bind at 1. unfold ret at 1.
  unfold bind at 1. rewrite IH by (intros y Hy; apply H; simpl; auto).
  reflexivity.
Qed.

Section SeveralAlbums.

Variable server : list event -> request -> response.
Variable clock : list event -> Z.

(** [get_several_albums_tracks] on a batch answer in which every album
    has fewer tracks than the page limit: the single batch request is all
    it sends, and it returns the inlined tracks of the albums, flattened
    under each album's id, in the order of the answer.  An album with
    [total_tracks >= limit], the limit included, is listed again through
    [get_albums_tracks] instead and its inlined tracks are not used. *)
Theorem several_albums_below_the_limit_cost_one_request
    fuel album_ids w w0 albums :
  refresh_if_close server clock w = (Ret tt, w0) ->
  json (server (trace w0) (GetAlbums (access_token (self w)) album_ids))
  = BSeveralAlbums albums ->
  (Forall (fun album => JFullAlbum.total_tracks album < JFullAlbum.limit album) albums ->
   get_several_albums_tracks server clock fuel album_ids w
   = (Ret (flat_map (fun album => map (track_row (JFullAlbum.id album))
                                      (JFullAlbum.items album)) albums),
      sent w0 (GetAlbums (access_token (self w)) album_ids))) /\
  (forall album,
      JFullAlbum.limit album <= JFullAlbum.total_tracks album ->
      album_tracks server clock fuel album
      = get_albums_tracks server clock fuel (JFullAlbum.id album)).
Proof.
  intros H0 Hjson. split.
  - intros Hall.
    pose proof (refresh_if_close_inv _ _ _ _ H0) as (Hs & _).
    unfold get_several_albums_tracks, check_access_token.
    rewrite (bind_eq _ _ _ _ _ H0).
    unfold bind at 1. unfold get_self at 1.
    unfold bind at 1. unfold send at 1. cbn [self trace stdin files].
    rewrite Hs, Hjson.
    unfold bind at 1.
    rewrite (collect_ret albums _
               (fun album => map (track_row (JFullAlbum.id album))
                                 (JFullAlbum.items album))).
    + unfold ret, sent. now rewrite flat_map_concat_map, Hs.
    + intros album Hin. rewrite Forall_forall in Hall.
      specialize (Hall album Hin). unfold album_tracks.
      destruct (Z.leb_spec (JFullAlbum.limit album) (JFullAlbum.total_tracks album));
        [lia | reflexivity].
  - intros album H. unfold album_tracks.
    apply Z.leb_le in H. now rewrite H.
Qed.

End SeveralAlbums.

(** ** Batching in general *)

Lemma chunks_concat {A} (size : nat) (xs : list A) n :
  concat (map (chunk size xs) (seq 0 n)) = firstn (size * n) xs.
Proof.
  induction n as [|n IH].
  - now rewrite Nat.mul_0_r.
  - rewrite seq_S, map_app, concat_app, IH. simpl. rewrite app_nil_r.
    unfold chunk, slice.
    replace (size * (n + 1) - size * n)%nat with size by lia.
    rewrite firstn_plus. f_equal. lia.
Qed.

Lemma chunk_length {A} (size : nat) (xs : list A) i :
  (length (chunk size xs i) <= size)%nat.
Proof.
  unfold chunk, slice. rewrite length_firstn. lia.
Qed.

Lemma chunks_cover {A} (size : nat) (xs : list A) count :
  (0 < size)%nat -> (length xs <= count)%nat ->
  concat (map (chunk size xs) (range (count / size + 1))) = xs.
Proof.
  intros Hsize Hlen. unfold range. rewrite chunks_concat.
  apply firstn_all2.
  pose proof (Nat.div_mod_eq count size).
  pose proof (Nat.mod_upper_bound count size). nia.
Qed.

Section BatchesInGeneral.

Variable server : list event -> request -> response.
Variable clock : list event -> Z.

Lemma for_each_uploads playlist_id (batch : nat -> list string) indices :
  forall w w',
    for_each indices (fun i => add_items_to_playlist server clock playlist_id (batch i)) w
    = (Ret tt, w') ->
    uploads (trace w')
    = uploads (trace w) ++ map (fun i => (playlist_id, batch i)) indices.
Proof.
  induction indices as [|i indices IH]; intros w w' H; simpl in H.
  - apply ret_inv in H as [_ ->]. simpl. now rewrite app_nil_r.
  - bind_inv H as u w1 E. destruct u. apply add_items_uploads in E.
    apply IH in H. rewrite H, E, <- app_assoc. reflexivity.
Qed.

Lemma collect_albums_requests fuel (batch : nat -> string) indices :
  forall w tracks w',
    collect indices (fun i => get_several_albums_tracks server clock fuel (batch i)) w
    = (Ret tracks, w') ->
    albums_requests (trace w') = albums_requests (trace w) ++ map batch indices.
Proof.
  induction indices as [|i indices IH]; intros w tracks w' H; simpl in H.
  - apply ret_inv in H as [_ ->]. simpl. now rewrite app_nil_r.
  - bind_inv H as t w1 E. apply get_several_albums_requests in E.
    bind_inv H as ts w2 E2. apply ret_inv in H as [_ ->].
    apply IH in E2. rewrite E2, E, <- app_assoc. reflexivity.
Qed.

(** The upload phase, for any number of candidates: when it returns it
    has sent [len(pending) // 100 + 1] add requests to the playlist, of at
    most 100 URIs each, which together carry every candidate's URI exactly
    once and in order.  When the number of candidates is a multiple of
    100 -- zero included -- the last request carries no URI at all. *)
Theorem review_upload_sends_every_uri_once playlist_id pending w w' :
  review_upload server clock playlist_id pending w = (Ret tt, w') ->
  let uris := map TrackRow.track_uri pending in
  let batches := map (chunk 100 uris) (range (length pending / 100 + 1)) in
  uploads (trace w') = uploads (trace w) ++ map (pair playlist_id) batches /\
  concat batches = uris /\
  Forall (fun batch => (length batch <= 100)%nat) batches /\
  ((length pending mod 100 = 0)%nat -> chunk 100 uris (length pending / 100) = []).
Proof.
  intros H uris batches. repeat split.
  - unfold review_upload in H. apply for_each_uploads in H.
    rewrite H. unfold batches. now rewrite map_map.
  - apply chunks_cover; [lia|]. unfold uris. now rewrite length_map.
  - apply Forall_forall. intros batch Hin. unfold batches in Hin.
    apply in_map_iff in Hin as (i & <- & _). apply chunk_length.
  - intros Hmod. unfold chunk, slice.
    rewrite skipn_all2; [apply firstn_nil|].
    unfold uris. rewrite length_map.
    pose proof (Nat.div_mod_eq (length pending) 100). lia.
Qed.

(** The fetch phase, for any number of albums: when it returns it has
    sent [album_count // 20 + 1] batched requests, the count being that of
    the albums before the ledger filter, of at most 20 ids each; as no more
    albums are left than were counted, the requests together carry every
    remaining album id exactly once and in order (the trailing ones may
    carry none). *)
Theorem review_fetch_requests_every_album_once fuel album_count albums w tracks w' :
  review_fetch server clock fuel album_count albums w = (Ret tracks, w') ->
  (length albums <= album_count)%nat ->
  let ids := map AlbumRow.album_id albums in
  let batches := map (chunk 20 ids) (range (album_count / 20 + 1)) in
  albums_requests (trace w')
  = albums_requests (trace w) ++ map (String.concat ",") batches /\
  concat batches = ids /\
  Forall (fun batch => (length batch <= 20)%nat) batches.
Proof.
  intros H Hlen ids batches. repeat split.
  - unfold review_fetch in H. bind_inv H as tss w1 E.
    apply ret_inv in H as [_ ->].
    apply (collect_albums_requests fuel
             (fun i => String.concat "," (album_ids_batch albums i))) in E.
    rewrite E. unfold batches. now rewrite map_map.
  - apply chunks_cover; [lia|]. unfold ids. now rewrite length_map.
  - apply Forall_forall. intros batch Hin. unfold batches in Hin.
    apply in_map_iff in Hin as (i & <- & _). apply chunk_length.
Qed.

End BatchesInGeneral.

Lemma several_albums_witness :
  get_several_albums_tracks inline_server demo_clock 5 "z,q" (demo_world "Y")
  = (Ret (flat_map (fun album => map (track_row (JFullAlbum.id album))
                                     (JFullAlbum.items album))
            [JFullAlbum.mk "z" 2 50 (firstn 2 demo_tracks);
             JFullAlbum.mk "q" 1 50 (firstn 1 (skipn 2 demo_tracks))]),
     sent (demo_world "Y") (GetAlbums (access_token (self (demo_world "Y"))) "z,q")).
Proof.
  apply (several_albums_below_the_limit_cost_one_request inline_server demo_clock 5
           "z,q" (demo_world "Y") (demo_world "Y"));
    [reflexivity | reflexivity | repeat constructor].
Defined.

Lemma review_upload_witness :
  let w' := snd (review_upload demo_server demo_clock "P2" demo_pending
                   (demo_world "Y")) in
  let uris := map TrackRow.track_uri demo_pending in
  let batches := map (chunk 100 uris) (range (length demo_pending / 100 + 1)) in
  uploads (trace w') = uploads (trace (demo_world "Y")) ++ map (pair "P2") batches /\
  concat batches = uris /\
  Forall (fun batch => (length batch <= 100)%nat) batches /\
  ((length demo_pending mod 100 = 0)%nat ->
   chunk 100 uris (length demo_pending / 100) = []).
Proof.
  apply (review_upload_sends_every_uri_once demo_server demo_clock "P2" demo_pending
           (demo_world "Y")).
  vm_compute. reflexivity.
Defined.

Lemma review_fetch_witness :
  let w' := snd (review_fetch demo_server demo_clock 5 25 demo_remaining
                   (demo_world "Y")) in
  let ids := map AlbumRow.album_id demo_remaining in
  let batches := map (chunk 20 ids) (range (25 / 20 + 1)) in
  albums_requests (trace w')
  = albums_requests (trace (demo_world "Y")) ++ map (String.concat ",") batches /\
  concat batches = ids /\
  Forall (fun batch => (length batch <= 20)%nat) batches.
Proof.
  apply (review_fetch_requests_every_album_once demo_server demo_clock 5 25
           demo_remaining (demo_world "Y") demo_fetched).
  - vm_compute. reflexivity.
  - vm_compute. lia.
Defined.

(** ** The ledger across runs *)

Lemma drop_duplicates_from_seen rows : forall seen,
  (forall row, In row rows -> In row seen) ->
  drop_duplicates_from seen rows = [].
Proof.
  induction rows as [|r rows IH]; intros seen H; simpl; [reflexivity|].
  destruct (existsb (Ledger.eqb r) seen) eqn:E.
  - apply IH. intros row Hrow. apply H. simpl. auto.
  - exfalso. apply not_true_iff_false in E. apply E.
    apply existsb_exists. exists r. split.
    + apply H. simpl. auto.
    + now apply ledger_eqb_eq.
Qed.

Lemma drop_duplicates_from_app old rows : forall seen,
  NoDup old -> (forall row, In row old -> ~ In row seen) ->
  drop_duplicates_from seen (old ++ rows)
  = old ++ drop_duplicates_from (rev old ++ seen) rows.
Proof.
  induction old as [|r old IH]; intros seen Hnd Hseen; simpl; [reflexivity|].
  apply NoDup_cons_iff in Hnd as [Hr Hnd].
  destruct (existsb (Ledger.eqb r) seen) eqn:E.
  - apply existsb_exists in E as (r' & Hin & Heq).
    apply ledger_eqb_eq in Heq. subst r'.
    destruct (Hseen r); simpl; auto.
  - f_equal. rewrite IH; [now rewrite <- app_assoc | assumption |].
    intros row Hrow [<-|Hin]; [contradiction|].
    apply (Hseen row); simpl; auto.
Qed.

(** The ledger only grows at its end: a loaded ledger without repeated
    rows comes back unchanged and in order at the head of the updated one,
    followed by the pairs of the run's tracks that it did not hold yet,
    each once. *)
Theorem updated_ledger_extends_the_loaded_one reviewed tracks :
  NoDup reviewed ->
  exists added,
    updated_reviewed reviewed tracks = reviewed ++ added /\
    NoDup added /\
    forall row, In row added <-> In row (ledger_rows tracks) /\ ~ In row reviewed.
Proof.
  intros Hnd.
  exists (drop_duplicates_from (rev reviewed ++ []) (ledger_rows tracks)).
  split; [|split].
  - unfold updated_reviewed, drop_duplicates.
    now apply drop_duplicates_from_app.
  - apply drop_duplicates_from_NoDup.
  - intros row. rewrite drop_duplicates_from_spec, app_nil_r, <- in_rev. tauto.
Qed.

Lemma updated_ledger_witness :
  exists added,
    updated_reviewed demo_ledger demo_filtered = demo_ledger ++ added /\
    NoDup added /\
    forall row, In row added
                <-> In row (ledger_rows demo_filtered) /\ ~ In row demo_ledger.
Proof.
  apply (updated_ledger_extends_the_loaded_one demo_ledger demo_filtered).
  apply (NoDup_map_inv Ledger.track_id).
  apply distinctb_NoDup. vm_compute. reflexivity.
Defined.

(** What a confirmed run writes keeps its own tracks out of the next run:
    against the updated ledger none of the run's tracks passes the
    "already reviewed" filter, no album holding one of them passes the
    album filter, and merging the same tracks once more changes nothing. *)
Theorem updated_ledger_filters_the_run_out :
  (forall reviewed tracks,
      not_yet_reviewed (updated_reviewed reviewed tracks) tracks = []) /\
  (forall reviewed tracks albums remaining album track,
      remove_reviewed_albums albums (updated_reviewed reviewed tracks) = Ret remaining ->
      In album remaining -> In track tracks ->
      AlbumRow.album_id album <> TrackRow.album_id track) /\
  (forall reviewed tracks,
      updated_reviewed (updated_reviewed reviewed tracks) tracks
      = updated_reviewed reviewed tracks).
Proof.
  assert (forall reviewed tracks track,
             In track tracks ->
             In (Ledger.mk (TrackRow.track_id track) (TrackRow.album_id track))
                (updated_reviewed reviewed tracks)) as Hheld.
  { intros reviewed tracks track Hin.
    unfold updated_reviewed, drop_duplicates.
    apply drop_duplicates_from_spec. split; [|easy].
    apply in_or_app. right. unfold ledger_rows.
    apply in_map_iff. eauto. }
  split; [|split].
  - intros reviewed tracks. unfold not_yet_reviewed.
    apply filter_nothing. intros track Hin.
    apply negb_false_iff, isin_iff, in_map_iff.
    eexists. split; [|apply (Hheld reviewed tracks track Hin)]. reflexivity.
  - intros reviewed tracks albums remaining album track Hrem Halbum Htrack Heq.
    unfold remove_reviewed_albums in Hrem.
    destruct albums as [|a0 albums0] eqn:Ha; [discriminate|].
    rewrite <- Ha in Hrem. injection Hrem as <-.
    apply filter_In in Halbum as [_ Hkeep].
    apply negb_true_iff in Hkeep.
    apply not_true_iff_false in Hkeep. apply Hkeep.
    apply isin_iff, in_map_iff.
    eexists. split; [|apply (Hheld reviewed tracks track Htrack)].
    simpl. now rewrite Heq.
  - intros reviewed tracks.
    set (updated := updated_reviewed reviewed tracks).
    unfold updated_reviewed at 1. unfold drop_duplicates.
    rewrite drop_duplicates_from_app.
    + rewrite drop_duplicates_from_seen; [apply app_nil_r|].
      intros row Hrow. rewrite app_nil_r, <- in_rev.
      unfold updated, updated_reviewed, drop_duplicates.
      apply drop_duplicates_from_spec. split; [|easy].
      apply in_or_app. now right.
    + apply drop_duplicates_from_NoDup.
    + easy.
Qed.

(** ** What a run may write *)

Section Writes.

Variable server : list event -> request -> response.
Variable clock : list event -> Z.

(** Every run of [review_artist_discography], however it ends -- by
    returning, raising or running out of iterations -- has either written
    nothing (no CSV, the files as they were, no follow request), or it was
    answered ["Y"] and has written exactly one CSV, at [path], every other
    file being as it was.  So the ledger is never written before the
    prompt, and the artist is never followed without the ledger having
    been written. *)
Theorem review_writes_only_the_ledger_and_only_when_confirmed
    fuel artist_id path w :
  let w' := snd (review_artist_discography server clock fuel artist_id path w) in
  (csv_writes (trace w') = csv_writes (trace w) /\ files w' = files w /\
   follows (trace w') = follows (trace w)) \/
  (exists rest rows,
      stdin w = "Y" :: rest /\
      csv_writes (trace w') = csv_writes (trace w) ++ [(path, rows)] /\
      files w' path = Some rows /\
      forall p, p <> path -> files w' p = files w p).
Proof.
  assert (forall a b, step all_but_follow a b ->
            csv_writes (trace b) = csv_writes (trace a) /\ files b = files a /\
            follows (trace b) = follows (trace a)) as Hquiet.
  { intros a b H. repeat split.
    - now apply (step_csv_writes _ _ _ H).
    - apply H.
    - now apply (step_follows _ _ _ H). }
  unfold review_artist_discography, check_access_token, bind.
  destruct (refresh_if_close server clock w) as [[[]|e|] w0] eqn:E0;
    pose proof (emits_run all_but_follow _ _ _ _
                  (emits_refresh_if_close server clock _ eq_refl) E0) as S0;
    cbn [snd]; auto.
  destruct (review_candidates server clock fuel artist_id path w0)
    as [[[[[pid reviewed] tracks] pending]|e|] w1] eqn:E1;
    pose proof (emits_run all_but_follow _ _ _ _
                  (emits_review_candidates server clock _ eq_refl fuel artist_id
                     path eq_refl eq_refl eq_refl eq_refl) E1) as S1;
    pose proof (step_trans _ _ _ _ S0 S1) as S;
    cbn [snd]; auto.
  assert (stdin w1 = stdin w) as Hs
    by (destruct S0 as (_ & I0 & _), S1 as (_ & I1 & _); congruence).
  destruct (Hquiet w w1 S) as (Hcsv1 & Hfiles1 & Hfollows1).
  unfold input. rewrite Hs.
  destruct (stdin w) as [|line rest] eqn:Hw; cbn [snd]; auto.
  destruct (String.eqb line "Y") eqn:Hy; cbn [negb snd]; [|left; auto].
  apply String.eqb_eq in Hy. subst line.
  set (w2 := mkWorld (self w1) (trace w1) rest (files w1)).
  unfold review_commit, bind.
  destruct (review_upload server clock pid pending w2) as [[[]|e|] wu] eqn:Eu;
    pose proof (emits_run all_but_follow _ _ _ _
                  (emits_review_upload server clock _ eq_refl pid pending eq_refl)
                  Eu) as Su;
    destruct (Hquiet w2 wu Su) as (Hcsvu & Hfilesu & Hfollowsu);
    unfold w2 in Hcsvu, Hfilesu, Hfollowsu;
    cbn [trace files] in Hcsvu, Hfilesu, Hfollowsu;
    cbn [snd]; try (left; repeat split; congruence).
  cbn [to_csv].
  set (rows := updated_reviewed reviewed tracks).
  set (wc := mkWorld (self wu) (trace wu ++ [WroteCsv path rows]) (stdin wu)
               (fun p => if String.eqb p path then Some rows else files wu p)).
  pose proof (emits_follow_artist server clock all_but_albums eq_refl artist_id
                eq_refl wc) as Sf.
  right. exists rest, rows.
  pose proof (step_csv_writes _ _ _ Sf) as Hcsvf.
  destruct Sf as (_ & _ & Ff & _).
  repeat split.
  - rewrite Hcsvf. unfold wc. cbn [trace]. unfold csv_writes at 1.
    rewrite flat_map_app. fold (csv_writes (trace wu)). now rewrite Hcsvu, Hcsv1.
  - rewrite Ff. unfold wc. cbn [files]. now rewrite String.eqb_refl.
  - intros p Hp. rewrite Ff. unfold wc. cbn [files].
    apply String.eqb_neq in Hp. now rewrite Hp, Hfilesu, Hfiles1.
Qed.

End Writes.

(** ** What a paginated listing returns *)

Section Listing.

Variable server : list event -> request -> response.

Lemma page_trace_next request offset n :
  Sent (request offset) :: page_trace request (offset + 50) n
  = page_trace request offset (S n).
Proof.
  unfold page_trace. cbn [seq map]. f_equal.
  - f_equal. f_equal. lia.
  - rewrite <- seq_shift, map_map. apply map_ext. intros k. do 2 f_equal. lia.
Qed.

(** Whatever the service answers: when an offset loop returns, it has
    sent the page requests at the offsets [offset], [offset + 50],
    [offset + 100], ... and nothing else -- the offset advances by 50 however
    many items a page held --, the number of rows it returns is the [total]
    of the last answer, and the rows are those it started from followed by
    the pages received, the last page at the end. *)
Theorem offset_loop_returns_the_pages_it_was_served {R} (request : Z -> request)
    (page : body -> option (list R * Z)) fuel :
  forall rows0 offset w rows w',
    offset_loop server request page fuel rows0 offset w = (Ret rows, w') ->
    exists n data earlier,
      (n < fuel)%nat /\
      trace w' = trace w ++ page_trace request offset (S n) /\
      self w' = self w /\ stdin w' = stdin w /\ files w' = files w /\
      page (json (server (trace w ++ page_trace request offset n)
                    (request (offset + 50 * Z.of_nat n))))
      = Some (data, Z.of_nat (length rows)) /\
      rows = rows0 ++ earlier ++ data.
Proof.
  induction fuel as [|fuel IH]; intros rows0 offset w rows w' H; [discriminate|].
  cbn [offset_loop] in H. unfold bind at 1 in H. unfold send at 1 in H.
  destruct (page (json (server (trace w) (request offset))))
    as [[data total]|] eqn:Hpage; [|discriminate].
  destruct (Z.eqb_spec (Z.of_nat (length (rows0 ++ data))) total) as [Et|_].
  - injection H as <- <-. exists 0%nat, data, [].
    repeat split; [lia | |].
    + cbn [trace]. unfold page_trace. cbn [seq map]. do 4 f_equal. lia.
    + unfold page_trace. cbn [seq map]. rewrite app_nil_r.
      replace (offset + 50 * Z.of_nat 0) with offset by lia.
      now rewrite Hpage, Et.
  - apply IH in H as (n & data' & earlier & Hn & Ht & Hs & Hi & Hf & Hp & Hr).
    cbn [trace self stdin files] in *.
    exists (S n), data', (data ++ earlier).
    repeat split; try assumption; [lia | | |].
    + rewrite Ht, <- app_assoc. cbn [app]. now rewrite page_trace_next.
    + rewrite <- page_trace_next.
      replace (offset + 50 * Z.of_nat (S n)) with (offset + 50 + 50 * Z.of_nat n)
        by lia.
      rewrite <- Hp. do 3 f_equal. now rewrite <- app_assoc.
    + rewrite Hr, <- !app_assoc. reflexivity.
Qed.

End Listing.

Lemma offset_loop_witness :
  exists n data earlier,
    (n < 5)%nat /\
    trace (snd (offset_loop paged_server (GetArtistAlbums "token" "A")
                  (albums_page "A") 5 [] 0 (demo_world "Y")))
    = trace (demo_world "Y") ++ page_trace (GetArtistAlbums "token" "A") 0 (S n) /\
    self (snd (offset_loop paged_server (GetArtistAlbums "token" "A")
                 (albums_page "A") 5 [] 0 (demo_world "Y")))
    = self (demo_world "Y") /\
    stdin (snd (offset_loop paged_server (GetArtistAlbums "token" "A")
                  (albums_page "A") 5 [] 0 (demo_world "Y")))
    = stdin (demo_world "Y") /\
    files (snd (offset_loop paged_server (GetArtistAlbums "token" "A")
                  (albums_page "A") 5 [] 0 (demo_world "Y")))
    = files (demo_world "Y") /\
    albums_page "A"
      (json (paged_server
               (trace (demo_world "Y") ++ page_trace (GetArtistAlbums "token" "A") 0 n)
               (GetArtistAlbums "token" "A" (0 + 50 * Z.of_nat n))))
    = Some (data, Z.of_nat (length (map (album_row "A") paged_albums))) /\
    map (album_row "A") paged_albums = [] ++ earlier ++ data.
Proof.
  apply (offset_loop_returns_the_pages_it_was_served paged_server
           (GetArtistAlbums "token" "A") (albums_page "A") 5 [] 0 (demo_world "Y")
           (map (album_row "A") paged_albums)).
  vm_compute. reflexivity.
Defined.

(** ** Nothing to review *)

Section Nothing.

Variable server : list event -> request -> response.
Variable clock : list event -> Z.

(** A run for an artist whose album listing is empty, or whose batched
    requests bring back no track at all, does not end quietly: the empty
    frame has no columns, so the run raises [KeyError] -- at the ledger
    filter before any batched request in the first case, at the artist
    filter before the prompt in the second. *)
Theorem review_of_nothing_raises_key_error
    fuel artist_id path w w0 pid reviewed albums w1 :
  refresh_if_close server clock w = (Ret tt, w0) ->
  review_load server clock fuel artist_id path w0 = (Ret (pid, reviewed, albums), w1) ->
  (albums = [] ->
   review_artist_discography server clock fuel artist_id path w
   = (Raise KeyError, w1)) /\
  (forall remaining w2,
      remove_reviewed_albums albums reviewed = Ret remaining ->
      review_fetch server clock fuel (length albums) remaining w1 = (Ret [], w2) ->
      review_artist_discography server clock fuel artist_id path w
      = (Raise KeyError, w2)).
Proof.
  intros H0 Hl.
  unfold review_artist_discography, check_access_token.
  rewrite (bind_eq _ _ _ _ _ H0).
  unfold review_candidates.
  assert (forall A B (m : M A) (k : A -> M B) v e v',
             m v = (Raise e, v') -> bind m k v = (Raise e, v')) as bind_raise
    by (intros A B m k v e v' E; unfold bind; now rewrite E).
  split.
  - intros ->. apply bind_raise.
    unfold review_candidates. now rewrite (bind_eq _ _ _ _ _ Hl).
  - intros remaining w2 Hrem Hfetch. apply bind_raise.
    unfold review_candidates. rewrite (bind_eq _ _ _ _ _ Hl). cbv beta iota.
    assert (lift (remove_reviewed_albums albums reviewed) w1 = (Ret remaining, w1))
      as Hlift by (unfold lift; now rewrite Hrem).
    now rewrite (bind_eq _ _ _ _ _ Hlift), (bind_eq _ _ _ _ _ Hfetch).
Qed.

End Nothing.

Lemma review_of_nothing_witness :
  review_artist_discography albumless_server demo_clock 5 "A" "reviewed.csv"
    (demo_world "Y")
  = (Raise KeyError,
     snd (review_load albumless_server demo_clock 5 "A" "reviewed.csv"
            (demo_world "Y"))).
Proof.
  apply (review_of_nothing_raises_key_error albumless_server demo_clock 5 "A"
           "reviewed.csv" (demo_world "Y") (demo_world "Y") "P2" demo_ledger []);
    reflexivity.
Defined.
